(** * memkv: an in-memory key/value store (store.go), shallow embedding

    Go strings are byte strings: they are modelled as [string], whose
    characters ([ascii]) are the 256 byte values.  The Go map
    [map[string]KVPair] is a [gmap string KVPair]; a [range] over the map
    visits its values in an unspecified order, so every scan takes the
    visited values as an explicit list [l] and the theorems quantify over
    every enumeration [l ≡ₚ (map_to_list m).*2]. *)

From stdpp Require Import base gmap strings list.
From Stdlib Require Import Ascii String Sorted ZArith.

Local Open Scope string_scope.

(** ** Go values *)

(** The [error] values the package returns: [ErrNotExist], [ErrNoMatch]
    and [filepath.ErrBadPattern]. *)
Inductive error := ErrNotExist | ErrNoMatch | ErrBadPattern.

(** A Go slice: [nil] or a made slice with its elements. *)
Inductive slice (A : Type) := GoNil | GoSlice (xs : list A).
Arguments GoNil {A}.
Arguments GoSlice {A} xs.

Definition elems {A} (s : slice A) : list A :=
  match s with GoNil => [] | GoSlice xs => xs end.

(** [append(s, x)]: the result is never nil. *)
Definition append {A} (s : slice A) (x : A) : slice A := GoSlice (elems s ++ [x]).

(** [KVPair] (declared with [Key] and [Value] fields, used positionally
    as [KVPair{key, value}] in [Set]). *)
Record KVPair := { Key : string; Value : string }.

(** The zero value [KVPair{}]. *)
Definition KVPair0 : KVPair := {| Key := ""; Value := "" |}.

(** The map [s.m]; the mutex is modelled separately (Module Concurrency). *)
Abbreviation Store := (gmap string KVPair).

(** ** Point operations *)

(** [New()] : an empty map. *)
Definition New : Store := ∅.

(** [Set(key, value)] : [s.m[key] = KVPair{key, value}]. *)
Definition Set_ (s : Store) (key value : string) : Store :=
  <[key := {| Key := key; Value := value |}]> s.

(** [Del(key)] : [delete(s.m, key)]. *)
Definition Del (s : Store) (key : string) : Store := delete key s.

(** [Get(key)] : [kv, ok := s.m[key]]; a missing key yields the zero value. *)
Definition Get (s : Store) (key : string) : KVPair * option error :=
  match s !! key with
  | Some kv => (kv, None)
  | None => (KVPair0, Some ErrNotExist)
  end.

(** [GetValue(key)]. *)
Definition GetValue (s : Store) (key : string) : string * option error :=
  match Get s key with
  | (_, Some e) => ("", Some e)
  | (kv, None) => (Value kv, None)
  end.

(** ** [path/filepath.Match] (Go standard library, match.go), Unix flavour:
    [Separator] is ['/'] and ['\\'] escapes. *)
Module FilepathMatch.

Local Open Scope Z_scope.

Definition byte (c : ascii) : Z := Z.of_N (N_of_ascii c).

Definition is_empty (s : string) : bool :=
  match s with EmptyString => true | String _ _ => false end.

(** [s[n:]] *)
Fixpoint sdrop (n : nat) (s : string) : string :=
  match n, s with
  | O, _ => s
  | S n', String _ s' => sdrop n' s'
  | S _, EmptyString => EmptyString
  end.

(** [strings.Contains(name, string(Separator))] *)
Fixpoint contains_sep (s : string) : bool :=
  match s with
  | EmptyString => false
  | String c s' => Ascii.eqb c "/"%char || contains_sep s'
  end.

(** *** [unicode/utf8.DecodeRuneInString] *)

Definition RuneError : Z := 65533.

(** The [first] table with [acceptRanges]: for a leading byte of a
    multi-byte sequence, its size and the accepted range of the second
    byte; [None] for the invalid leading bytes 0x80-0xC1 and 0xF5-0xFF. *)
Definition first_info (b : Z) : option (nat * Z * Z) :=
  if b <? 194 then None
  else if b <=? 223 then Some (2%nat, 128, 191)
  else if b =? 224 then Some (3%nat, 160, 191)
  else if b <=? 236 then Some (3%nat, 128, 191)
  else if b =? 237 then Some (3%nat, 128, 159)
  else if b <=? 239 then Some (3%nat, 128, 191)
  else if b =? 240 then Some (4%nat, 144, 191)
  else if b <=? 243 then Some (4%nat, 128, 191)
  else if b =? 244 then Some (4%nat, 128, 143)
  else None.

Definition in_range (lo hi b : Z) : bool := (lo <=? b) && (b <=? hi).

(** Every failure of the decoder returns [(RuneError, 1)]. *)
Definition DecodeRuneInString (s : string) : Z * nat :=
  match s with
  | EmptyString => (RuneError, 0%nat)
  | String c0 s1 =>
    let b0 := byte c0 in
    if b0 <? 128 then (b0, 1%nat) else
    match first_info b0 with
    | None => (RuneError, 1%nat)
    | Some (sz, lo, hi) =>
      match s1 with
      | EmptyString => (RuneError, 1%nat)
      | String c1 s2 =>
        let b1 := byte c1 in
        if negb (in_range lo hi b1) then (RuneError, 1%nat) else
        if (sz =? 2)%nat then
          (Z.lor (Z.shiftl (Z.land b0 31) 6) (Z.land b1 63), 2%nat) else
        match s2 with
        | EmptyString => (RuneError, 1%nat)
        | String c2 s3 =>
          let b2 := byte c2 in
          if negb (in_range 128 191 b2) then (RuneError, 1%nat) else
          if (sz =? 3)%nat then
            (Z.lor (Z.lor (Z.shiftl (Z.land b0 15) 12) (Z.shiftl (Z.land b1 63) 6))
                   (Z.land b2 63), 3%nat) else
          match s3 with
          | EmptyString => (RuneError, 1%nat)
          | String c3 _ =>
            let b3 := byte c3 in
            if negb (in_range 128 191 b3) then (RuneError, 1%nat) else
            (Z.lor (Z.lor (Z.lor (Z.shiftl (Z.land b0 7) 18) (Z.shiftl (Z.land b1 63) 12))
                          (Z.shiftl (Z.land b2 63) 6)) (Z.land b3 63), 4%nat)
          end
        end
      end
    end
  end.

(** *** [scanChunk] *)

(** [for len(pattern) > 0 && pattern[0] == '*' { pattern = pattern[1:]; star = true }] *)
Fixpoint strip_stars (p : string) : bool * string :=
  match p with
  | String c p' => if Ascii.eqb c "*"%char then (true, snd (strip_stars p')) else (false, p)
  | EmptyString => (false, p)
  end.

(** The [Scan:] loop: returns [(pattern[0:i], pattern[i:])]. *)
Fixpoint scan (inrange : bool) (p : string) : string * string :=
  match p with
  | EmptyString => (EmptyString, EmptyString)
  | String c p' =>
    if Ascii.eqb c "\"%char then
      match p' with
      | EmptyString => (String c EmptyString, EmptyString)
      | String c2 p'' => let '(ch, r) := scan inrange p'' in (String c (String c2 ch), r)
      end
    else if Ascii.eqb c "["%char then let '(ch, r) := scan true p' in (String c ch, r)
    else if Ascii.eqb c "]"%char then let '(ch, r) := scan false p' in (String c ch, r)
    else if Ascii.eqb c "*"%char && negb inrange then (EmptyString, p)
    else let '(ch, r) := scan inrange p' in (String c ch, r)
  end.

Definition scanChunk (pattern : string) : bool * string * string :=
  let '(star, p) := strip_stars pattern in
  let '(chunk, rest) := scan false p in
  (star, chunk, rest).

(** *** [getEsc]: [None] is [ErrBadPattern]. *)
Definition getEsc (chunk : string) : option (Z * string) :=
  match chunk with
  | EmptyString => None
  | String c chunk1 =>
    if Ascii.eqb c "-"%char || Ascii.eqb c "]"%char then None else
    let chunk' := if Ascii.eqb c "\"%char then chunk1 else chunk in
    if is_empty chunk' then None else
    let '(r, n) := DecodeRuneInString chunk' in
    if (r =? RuneError) && (n =? 1)%nat then None else
    let nchunk := sdrop n chunk' in
    if is_empty nchunk then None else Some (r, nchunk)
  end.

(** The range-parsing loop of a character class; returns the rest of
    the chunk after [']'] and whether [r] fell in a range.  Each round
    consumes at least one byte, so [S (length chunk)] rounds suffice. *)
Fixpoint class_loop (fuel : nat) (chunk : string) (r : Z) (nrange : nat) (m : bool)
  : option (string * bool) :=
  match fuel with
  | O => None
  | S f =>
    match chunk with
    | String c rest =>
      if Ascii.eqb c "]"%char && (0 <? nrange)%nat then Some (rest, m) else
      match getEsc chunk with
      | None => None
      | Some (lo, chunk1) =>
        let hi_res :=
          match chunk1 with
          | String c1 ch1 => if Ascii.eqb c1 "-"%char then getEsc ch1 else Some (lo, chunk1)
          | EmptyString => Some (lo, chunk1)
          end in
        match hi_res with
        | None => None
        | Some (hi, chunk2) => class_loop f chunk2 r (S nrange) (m || ((lo <=? r) && (r <=? hi)))
        end
      end
    | EmptyString => None
    end
  end.

(** *** [matchChunk]: [(rest, ok, err)].  Each round consumes at least
    one byte of the chunk. *)
Fixpoint matchChunk_loop (fuel : nat) (chunk s : string) (failed : bool)
  : string * bool * option error :=
  match fuel with
  | O => (EmptyString, false, None)
  | S f =>
    match chunk with
    | EmptyString => if failed then (EmptyString, false, None) else (s, true, None)
    | String c chunk1 =>
      let failed := failed || is_empty s in
      let default c chunk1 :=
        match failed, s with
        | false, String c0 s' => matchChunk_loop f chunk1 s' (negb (Ascii.eqb c c0))
        | _, _ => matchChunk_loop f chunk1 s true
        end in
      if Ascii.eqb c "["%char then
        let '(r, s1) :=
          match failed, s with
          | false, String _ _ => let '(r, n) := DecodeRuneInString s in (r, sdrop n s)
          | _, _ => (0, s)
          end in
        let '(negated, chunk2) :=
          match chunk1 with
          | String c1 ch => if Ascii.eqb c1 "^"%char then (true, ch) else (false, chunk1)
          | EmptyString => (false, chunk1)
          end in
        match class_loop (S (length chunk2)) chunk2 r 0 false with
        | None => (EmptyString, false, Some ErrBadPattern)
        | Some (chunk3, m) => matchChunk_loop f chunk3 s1 (failed || Bool.eqb m negated)
        end
      else if Ascii.eqb c "?"%char then
        match failed, s with
        | false, String c0 _ =>
          let '(_, n) := DecodeRuneInString s in
          matchChunk_loop f chunk1 (sdrop n s) (Ascii.eqb c0 "/"%char)
        | _, _ => matchChunk_loop f chunk1 s true
        end
      else if Ascii.eqb c "\"%char then
        match chunk1 with
        | EmptyString => (EmptyString, false, Some ErrBadPattern)
        | String c2 chunk2 => default c2 chunk2
        end
      else default c chunk1
    end
  end.

Definition matchChunk (chunk s : string) : string * bool * option error :=
  matchChunk_loop (S (length chunk)) chunk s false.

(** *** [Match] *)

Inductive star_result := Found (t : string) | StarErr (e : error) | NotFound.

(** [for i := 0; i < len(name) && name[i] != Separator; i++ { t, ok, err :=
    matchChunk(chunk, name[i+1:]) ... }]; [last] is [len(pattern) == 0]. *)
Fixpoint star_loop (chunk : string) (last : bool) (name : string) : star_result :=
  match name with
  | EmptyString => NotFound
  | String c name' =>
    if Ascii.eqb c "/"%char then NotFound else
    match matchChunk chunk name' with
    | (t, true, _) => if last && negb (is_empty t) then star_loop chunk last name' else Found t
    | (_, false, Some e) => StarErr e
    | (_, false, None) => star_loop chunk last name'
    end
  end.

(** Checking that the rest of the pattern is well formed before
    returning [false, nil]. *)
Fixpoint validate (fuel : nat) (pattern : string) : bool * option error :=
  match fuel with
  | O => (false, None)
  | S f =>
    if is_empty pattern then (false, None) else
    let '(_, chunk, rest) := scanChunk pattern in
    match matchChunk chunk EmptyString with
    | (_, _, Some e) => (false, Some e)
    | _ => validate f rest
    end
  end.

(** The [Pattern:] loop; every round consumes at least one byte of the
    pattern, so [S (length pattern)] rounds suffice. *)
Fixpoint Match_loop (fuel : nat) (pattern name : string) : bool * option error :=
  match fuel with
  | O => (false, None)
  | S f =>
    if is_empty pattern then (is_empty name, None) else
    let '(star, chunk, rest) := scanChunk pattern in
    if star && is_empty chunk then (negb (contains_sep name), None) else
    match matchChunk chunk name with
    | (t, true, _) =>
      if is_empty t || negb (is_empty rest) then Match_loop f rest t
      else if star then
        match star_loop chunk (is_empty rest) name with
        | Found t' => Match_loop f rest t'
        | StarErr e => (false, Some e)
        | NotFound => validate f rest
        end
      else validate f rest
    | (_, false, Some e) => (false, Some e)
    | (_, false, None) =>
      if star then
        match star_loop chunk (is_empty rest) name with
        | Found t' => Match_loop f rest t'
        | StarErr e => (false, Some e)
        | NotFound => validate f rest
        end
      else validate f rest
    end
  end.

Definition Match (pattern name : string) : bool * option error :=
  Match_loop (S (length pattern)) pattern name.

End FilepathMatch.

Import FilepathMatch.

Example Match_ex1 : Match "/a/*" "/a/1" = (true, None). Proof. reflexivity. Qed.
Example Match_ex2 : Match "/a/*" "/a/b/c" = (false, None). Proof. reflexivity. Qed.
Example Match_ex3 : Match "[" "x" = (false, Some ErrBadPattern). Proof. reflexivity. Qed.
Example Match_ex4 : Match "?" "/" = (false, None). Proof. reflexivity. Qed.
Example Match_ex5 : Match "a[" "b" = (false, Some ErrBadPattern). Proof. reflexivity. Qed.
Example Match_ex6 : Match "[a-c]x" "bx" = (true, None). Proof. reflexivity. Qed.
Example Match_ex7 : Match "[^a]" "/" = (true, None). Proof. reflexivity. Qed.
Example Match_ex8 : Match "a*b" "axxb" = (true, None). Proof. reflexivity. Qed.
Example Match_ex9 : Match "a*b" "ax/b" = (false, None). Proof. reflexivity. Qed.
Example Match_ex10 : Match "\*" "*" = (true, None). Proof. reflexivity. Qed.
Example Match_ex11 : Match "*" "" = (true, None). Proof. reflexivity. Qed.
Example Match_ex12 : Match "a*" "a/b" = (false, None). Proof. reflexivity. Qed.
Example Match_ex13 : Match "*x*y" "axbxcy" = (true, None). Proof. reflexivity. Qed.
Example Match_ex14 : Match "" "" = (true, None). Proof. reflexivity. Qed.
Example Match_ex15 : Match "a?" "ab" = (true, None). Proof. reflexivity. Qed.

(** ** Sorting *)

(** [sort.Sort] / [sort.Strings] order their input by the [Less] of the
    element type; they are not stable, but every use below sorts
    elements with pairwise distinct sort keys, so the result is the
    unique ascending arrangement, computed here by insertion. *)
Fixpoint insert_by {A} (key : A -> string) (x : A) (l : list A) : list A :=
  match l with
  | [] => [x]
  | y :: l' => if String.leb (key x) (key y) then x :: y :: l' else y :: insert_by key x l'
  end.

Fixpoint sort_by {A} (key : A -> string) (l : list A) : list A :=
  match l with
  | [] => []
  | x :: l' => insert_by key x (sort_by key l')
  end.

(** Modelled from the spec: [KVPairs] and its [sort.Interface] methods
    (declared outside store.go); per the spec, [Less] compares [Key]s in
    byte-wise lexicographic order ([ks[i].Key < ks[j].Key]). *)
Definition sort_KVPairs (ks : list KVPair) : list KVPair := sort_by Key ks.

(** [sort.Strings]: Go's [<] on strings is byte-wise lexicographic. *)
Definition sort_Strings (vs : list string) : list string := sort_by (fun s => s) vs.

(** ** Pattern queries *)

(** The [range s.m] loop of [GetAll]: [inr e] is the early
    [return nil, err]. *)
Fixpoint getall_scan (pattern : string) (l : list KVPair) (ks : slice KVPair)
  : slice KVPair + error :=
  match l with
  | [] => inl ks
  | kv :: l' =>
    match Match pattern (Key kv) with
    | (_, Some e) => inr e
    | (true, None) => getall_scan pattern l' (append ks kv)
    | (false, None) => getall_scan pattern l' ks
    end
  end.

(** [GetAll(pattern)], the map's values visited in the order [l]. *)
Definition GetAll_in (l : list KVPair) (pattern : string) : slice KVPair * option error :=
  match getall_scan pattern l (GoSlice []) with
  | inr e => (GoNil, Some e)
  | inl ks =>
    if (List.length (elems ks) =? 0)%nat then (GoNil, Some ErrNoMatch)
    else (GoSlice (sort_KVPairs (elems ks)), None)
  end.

(** [GetAllValues(pattern)] *)
Definition GetAllValues_in (l : list KVPair) (pattern : string) : slice string * option error :=
  let vs := GoSlice [] in
  match GetAll_in l pattern with
  | (_, Some e) => (vs, Some e)
  | (ks, None) => (fold_left (fun vs kv => append vs (Value kv)) (elems ks) vs, None)
  end.

(** The values of the map, in the order [map_to_list] happens to give;
    a [range] may visit them in any order [l ≡ₚ values s]. *)
Definition values (s : Store) : list KVPair := (map_to_list s).*2.

Definition GetAll (s : Store) (pattern : string) := GetAll_in (values s) pattern.
Definition GetAllValues (s : Store) (pattern : string) := GetAllValues_in (values s) pattern.

(** ** Hierarchical listing *)

(** [strings.HasPrefix(s, prefix)] *)
Fixpoint HasPrefix (s prefix : string) {struct prefix} : bool :=
  match prefix, s with
  | EmptyString, _ => true
  | String p prefix', String c s' => Ascii.eqb p c && HasPrefix s' prefix'
  | String _ _, EmptyString => false
  end.

(** [strings.TrimPrefix(s, prefix)] *)
Definition TrimPrefix (s prefix : string) : string :=
  if HasPrefix s prefix then FilepathMatch.sdrop (String.length prefix) s else s.

(** [s[1:]]: [None] is the run-time panic "slice bounds out of range"
    on an empty string. *)
Definition from1 (s : string) : option string :=
  match s with EmptyString => None | String _ s' => Some s' end.

(** The text before the first ['/'] and, if there is one, the text after it. *)
Fixpoint cut_sep (s : string) : string * option string :=
  match s with
  | EmptyString => (EmptyString, None)
  | String c s' =>
    if Ascii.eqb c "/"%char then (EmptyString, Some s')
    else let '(a, r) := cut_sep s' in (String c a, r)
  end.

(** [strings.SplitN(s, "/", 2)] *)
Definition SplitN2 (s : string) : list string :=
  match cut_sep s with
  | (a, None) => [a]
  | (a, Some b) => [a; b]
  end.

(** [items[0]] of a [SplitN] result (never empty). *)
Definition first_item (items : list string) : string :=
  match items with [] => EmptyString | a :: _ => a end.

(** The [range s.m] loop of [List], building the set [m]; [None] is a
    panic. *)
Fixpoint list_scan (path : string) (l : list KVPair) (m : gset string) : option (gset string) :=
  match l with
  | [] => Some m
  | kv :: l' =>
    if HasPrefix (Key kv) path then
      let strippedKey := TrimPrefix (Key kv) path in
      match from1 strippedKey with
      | None => None
      | Some x => list_scan path l' ({[ first_item (SplitN2 x) ]} ∪ m)
      end
    else list_scan path l' m
  end.

(** [List(path)]: [for k := range m] collects the set's elements in some
    order, which [sort.Strings] then fixes. *)
Definition List_in (l : list KVPair) (path : string) : option (list string) :=
  match list_scan path l ∅ with
  | None => None
  | Some m => Some (sort_Strings (elements m))
  end.

(** The loop of [ListDir]: as [list_scan], skipping one-item splits. *)
Fixpoint listdir_scan (path : string) (l : list KVPair) (m : gset string) : option (gset string) :=
  match l with
  | [] => Some m
  | kv :: l' =>
    if HasPrefix (Key kv) path then
      let strippedKey := TrimPrefix (Key kv) path in
      match from1 strippedKey with
      | None => None
      | Some x =>
        let items := SplitN2 x in
        if (List.length items <? 2)%nat then listdir_scan path l' m
        else listdir_scan path l' ({[ first_item items ]} ∪ m)
      end
    else listdir_scan path l' m
  end.

Definition ListDir_in (l : list KVPair) (path : string) : option (list string) :=
  match listdir_scan path l ∅ with
  | None => None
  | Some m => Some (sort_Strings (elements m))
  end.

Definition List (s : Store) (path : string) := List_in (values s) path.
Definition ListDir (s : Store) (path : string) := ListDir_in (values s) path.

(** The spec's examples. *)
Definition app_store : Store :=
  Set_ (Set_ (Set_ New "/app/db/host" "h") "/app/db/port" "p") "/app/cache/ttl" "t".

(** The records of [app_store] under [/app/db]. *)
Definition db_pairs : list KVPair :=
  [{| Key := "/app/db/host"; Value := "h" |}; {| Key := "/app/db/port"; Value := "p" |}].

Example List_app : List app_store "/app" = Some ["cache"; "db"].
Proof. vm_compute. reflexivity. Qed.
Example ListDir_app : ListDir app_store "/app" = Some ["cache"; "db"].
Proof. vm_compute. reflexivity. Qed.
Example List_standalone : List (Set_ app_store "/app/standalone" "s") "/app" = Some ["cache"; "db"; "standalone"].
Proof. vm_compute. reflexivity. Qed.
Example ListDir_standalone : ListDir (Set_ app_store "/app/standalone" "s") "/app" = Some ["cache"; "db"].
Proof. vm_compute. reflexivity. Qed.
Example GetAllValues_sorted :
  GetAllValues (Set_ (Set_ (Set_ New "/a/2" "2") "/a/1" "1") "/a/3" "3") "/a/*"
  = (GoSlice ["1"; "2"; "3"], None).
Proof. vm_compute. reflexivity. Qed.

Example List_exact_key_panics : List (Set_ New "/app" "x") "/app" = None.
Proof. vm_compute. reflexivity. Qed.

(** ** The operations as a state transformer *)

(** Every exported method, by the arguments it receives. *)
Inductive op :=
  | OpSet (key value : string) | OpDel (key : string)
  | OpGet (key : string) | OpGetValue (key : string)
  | OpGetAll (pattern : string) | OpGetAllValues (pattern : string)
  | OpList (path : string) | OpListDir (path : string).

(** The map after the call: only [Set] and [Del] write [s.m]. *)
Definition exec (s : Store) (o : op) : Store :=
  match o with
  | OpSet k v => Set_ s k v
  | OpDel k => Del s k
  | OpGet _ | OpGetValue _ | OpGetAll _ | OpGetAllValues _ | OpList _ | OpListDir _ => s
  end.

(** The calls that build [app_store]. *)
Definition app_ops : list op :=
  [OpSet "/app/db/host" "h"; OpSet "/app/db/port" "p"; OpSet "/app/cache/ttl" "t"].

(** The representation invariant [map[k].key == k]. *)
Definition keys_consistent (s : Store) : Prop := map_Forall (fun k kv => Key kv = k) s.

(** No metacharacter of [filepath.Match] ([*], [?], [[], [\\]) in the
    pattern. *)
Fixpoint literal (p : string) : bool :=
  match p with
  | EmptyString => true
  | String c p' =>
    negb (Ascii.eqb c "*"%char || Ascii.eqb c "?"%char || Ascii.eqb c "["%char ||
          Ascii.eqb c "\"%char) && literal p'
  end.

(** The map after a sequence of calls on [New()]. *)
Definition run (ops : list op) : Store := fold_left exec ops New.


(** * Proofs *)

(** ** Sorting lemmas *)

Section Sorting.
Context {A : Type} (key : A -> string).

Definition key_le (a b : A) : Prop := String.leb (key a) (key b) = true.

Lemma leb_flip (x y : string) : String.leb x y = false -> String.leb y x = true.
Proof. intros H. destruct (String.leb_total x y) as [H'|H']; congruence. Qed.

Lemma insert_by_perm (x : A) (l : list A) : Permutation (insert_by key x l) (x :: l).
Proof.
  induction l as [|y l IH]; simpl; [reflexivity|].
  destruct (String.leb (key x) (key y)); [reflexivity|].
  rewrite IH. apply perm_swap.
Qed.

Lemma sort_by_perm (l : list A) : Permutation (sort_by key l) l.
Proof.
  induction l as [|x l IH]; simpl; [reflexivity|].
  rewrite insert_by_perm, IH. reflexivity.
Qed.

Lemma insert_by_HdRel (y x : A) (l : list A) :
  key_le y x -> HdRel key_le y l -> HdRel key_le y (insert_by key x l).
Proof.
  intros Hyx Hl. destruct l as [|z l]; simpl; [constructor; exact Hyx|].
  destruct (String.leb (key x) (key z)); constructor; [exact Hyx|].
  now inversion Hl.
Qed.

Lemma insert_by_sorted (x : A) (l : list A) :
  Sorted key_le l -> Sorted key_le (insert_by key x l).
Proof.
  induction 1 as [|y l Hs IH Hhd]; simpl.
  - repeat constructor.
  - destruct (String.leb (key x) (key y)) eqn:E.
    + constructor; [constructor; assumption | constructor; exact E].
    + constructor; [exact IH|]. apply insert_by_HdRel; [|exact Hhd].
      unfold key_le. now apply leb_flip.
Qed.

Lemma sort_by_sorted (l : list A) : Sorted key_le (sort_by key l).
Proof.
  induction l as [|x l IH]; simpl; [constructor|]. now apply insert_by_sorted.
Qed.

End Sorting.

(** ** Point operations *)

(** Claim C1: after [Set(k, v)], [Get(k)] returns [KVPair{k, v}] and no
    error, whatever the store held before. *)
Theorem Get_after_Set (s : Store) (k v : string) :
  Get (Set_ s k v) k = ({| Key := k; Value := v |}, None).
Proof. unfold Get, Set_. by rewrite lookup_insert_eq. Qed.

(** Claim C7: after [Del(k)], [Get(k)] fails with [ErrNotExist]; [Del]
    of an absent key leaves the map unchanged, so [Del] is idempotent;
    [Del] is a total function of the map (no error result). *)
Theorem Del_spec (s : Store) (k : string) :
  Get (Del s k) k = (KVPair0, Some ErrNotExist) /\
  (s !! k = None -> Del s k = s) /\
  Del (Del s k) k = Del s k.
Proof.
  unfold Get, Del. split; [by rewrite lookup_delete_eq|]. split.
  - intros H. by apply delete_id.
  - apply delete_id. apply lookup_delete_eq.
Qed.

(** Claim C9: [map[k].key == k] holds for [New()] and is preserved by
    every operation, in particular [Set] and [Del]. *)
Theorem keys_consistent_invariant :
  keys_consistent New /\
  (forall (s : Store) (o : op), keys_consistent s -> keys_consistent (exec s o)).
Proof.
  split; [apply map_Forall_empty|].
  intros s o Hs. destruct o as [k v|k|k|k|p|p|p|p]; simpl; try exact Hs.
  - unfold Set_. apply map_Forall_insert_2; [reflexivity|exact Hs].
  - unfold Del. by apply map_Forall_delete.
Qed.

(** ** Composition of the point operations *)

(** [Set] and [Del] of a key [k'] leave [Get] of every other key [k]
    unchanged. *)
Theorem Get_Set_Del_other (s : Store) (k k' v : string) :
  k' <> k -> Get (Set_ s k' v) k = Get s k /\ Get (Del s k') k = Get s k.
Proof.
  intros Hne. unfold Get, Set_, Del.
  rewrite lookup_insert_ne, lookup_delete_ne by exact Hne. split; reflexivity.
Qed.

(** [GetValue] after [Set(k, v)] returns [v]; after [Del(k)], and on a
    fresh store, it returns [""] with [ErrNotExist]. *)
Theorem GetValue_Set_Del (s : Store) (k v : string) :
  GetValue (Set_ s k v) k = (v, None) /\ GetValue (Del s k) k = ("", Some ErrNotExist) /\
  GetValue New k = ("", Some ErrNotExist).
Proof.
  unfold GetValue, Get, Set_, Del, New.
  rewrite lookup_insert_eq, lookup_delete_eq, lookup_empty. repeat split.
Qed.

(** A second [Set] of a key overwrites the first; [Del] undoes a [Set]
    of the same key; a [Set] after [Del] is a plain [Set]. *)
Theorem Set_Del_compose (s : Store) (k v w : string) :
  Set_ (Set_ s k v) k w = Set_ s k w /\
  Del (Set_ s k v) k = Del s k /\
  Set_ (Del s k) k v = Set_ s k v.
Proof. unfold Set_, Del. rewrite insert_insert_eq, delete_insert_eq, insert_delete_eq. auto. Qed.

(** On distinct keys, [Set] and [Del] calls commute. *)
Theorem Set_Del_commute (s : Store) (k k' v v' : string) :
  k <> k' ->
  Set_ (Set_ s k v) k' v' = Set_ (Set_ s k' v') k v /\
  Del (Set_ s k v) k' = Set_ (Del s k') k v /\
  Del (Del s k) k' = Del (Del s k') k.
Proof.
  intros Hne. unfold Set_, Del. split; [|split].
  - apply insert_insert_ne. congruence.
  - apply delete_insert_ne. congruence.
  - apply delete_delete.
Qed.

Lemma run_consistent (ops : list op) : keys_consistent (run ops).
Proof.
  unfold run. assert (H : keys_consistent New) by apply map_Forall_empty.
  revert H. generalize New. induction ops as [|o ops IH]; intros s Hs; simpl; [exact Hs|].
  apply IH. destruct o as [k v|k|k|k|p|p|p|p]; simpl; try exact Hs.
  - unfold Set_. apply map_Forall_insert_2; [reflexivity|exact Hs].
  - unfold Del. by apply map_Forall_delete.
Qed.

(** On any store built from [New()] by a sequence of calls, a
    successful [Get(k)] returns a record whose [Key] field is [k]. *)
Theorem Get_Key_field (ops : list op) (k : string) (kv : KVPair) :
  Get (run ops) k = (kv, None) -> Key kv = k.
Proof.
  intros H. unfold Get in H. destruct (run ops !! k) as [kv'|] eqn:E; [|discriminate].
  injection H as <-. exact (run_consistent ops k kv' E).
Qed.

(** ** [GetAll] and [GetAllValues] *)

(** [filepath.Match(pattern, kv.Key)] returned [true, nil]. *)
Definition is_match (pattern : string) (kv : KVPair) : bool :=
  match Match pattern (Key kv) with (true, None) => true | _ => false end.

Lemma Permutation_filter_bool {A} (f : A -> bool) (l l' : list A) :
  Permutation l l' -> Permutation (List.filter f l) (List.filter f l').
Proof.
  induction 1; simpl.
  - constructor.
  - destruct (f x); [constructor|]; assumption.
  - destruct (f x), (f y); try constructor; reflexivity.
  - etransitivity; eassumption.
Qed.

Lemma getall_scan_ok (pattern : string) (l : list KVPair) (ks ks' : slice KVPair) :
  getall_scan pattern l ks = inl ks' ->
  elems ks' = (elems ks ++ List.filter (is_match pattern) l)%list.
Proof.
  revert ks. induction l as [|kv l IH]; intros ks H; simpl in H.
  - injection H as <-. simpl. now rewrite app_nil_r.
  - unfold is_match in *. simpl.
    destruct (Match pattern (Key kv)) as [[|] [e|]]; try discriminate H.
    + rewrite (IH _ H). simpl. now rewrite <- app_assoc.
    + exact (IH _ H).
Qed.

Lemma getall_scan_err (pattern : string) (l : list KVPair) (ks : slice KVPair) (e : error) :
  getall_scan pattern l ks = inr e ->
  exists kv, In kv l /\ snd (Match pattern (Key kv)) = Some e.
Proof.
  revert ks. induction l as [|kv l IH]; intros ks H; cbn [getall_scan] in H; [discriminate|].
  destruct (Match pattern (Key kv)) as [b [e'|]] eqn:Em; cbn iota in H.
  - assert (e' = e) as <- by (destruct b; congruence). exists kv. split; [left; reflexivity|]. now rewrite Em.
  - destruct b; destruct (IH _ H) as (kv' & Hin & Hm); exists kv'; split; auto; right; exact Hin.
Qed.

Lemma getall_scan_noerr (pattern : string) (l : list KVPair) (ks : slice KVPair) :
  (forall kv, In kv l -> snd (Match pattern (Key kv)) = None) ->
  exists ks', getall_scan pattern l ks = inl ks'.
Proof.
  revert ks. induction l as [|kv l IH]; intros ks H; cbn [getall_scan]; [eauto|].
  destruct (Match pattern (Key kv)) as [b [e|]] eqn:Em.
  - specialize (H kv (or_introl eq_refl)). rewrite Em in H. discriminate.
  - destruct b; apply IH; intros kv' Hin; apply H; right; exact Hin.
Qed.

Lemma In_values (s : Store) (kv : KVPair) :
  In kv (values s) <-> exists k, s !! k = Some kv.
Proof.
  unfold values. rewrite <- list_elem_of_In, list_elem_of_fmap. split.
  - intros ([k kv'] & -> & Hin). exists k. now apply elem_of_map_to_list.
  - intros [k Hk]. exists (k, kv). split; [reflexivity|]. now apply elem_of_map_to_list.
Qed.

Lemma is_match_true (pattern : string) (kv : KVPair) :
  is_match pattern kv = true <-> Match pattern (Key kv) = (true, None).
Proof.
  unfold is_match. destruct (Match pattern (Key kv)) as [[|] [e|]]; split; congruence.
Qed.

Lemma filter_In_values_iff (pattern : string) (s : Store) (kv : KVPair) :
  In kv (List.filter (is_match pattern) (values s)) <->
  (exists k, s !! k = Some kv) /\ Match pattern (Key kv) = (true, None).
Proof. rewrite filter_In, In_values, is_match_true. reflexivity. Qed.

(** Claim C2: when [GetAll(pattern)] succeeds, in whatever order the
    [range] visits the map, its result is a made slice holding exactly
    the stored records whose [Key] [filepath.Match]es [pattern] (each
    once, as a permutation of the matching values of the map), sorted by
    [Key] in ascending byte-wise order. *)
Theorem GetAll_success (s : Store) (l : list KVPair) (pattern : string) (r : slice KVPair) :
  l ≡ₚ values s ->
  GetAll_in l pattern = (r, None) ->
  r = GoSlice (elems r) /\
  Permutation (elems r) (List.filter (is_match pattern) (values s)) /\
  (forall kv, In kv (elems r) <->
     (exists k, s !! k = Some kv) /\ Match pattern (Key kv) = (true, None)) /\
  Sorted (key_le Key) (elems r).
Proof.
  intros Hl H. unfold GetAll_in in H.
  destruct (getall_scan pattern l (GoSlice [])) as [ks|e] eqn:Hscan; [|discriminate].
  destruct (List.length (elems ks) =? 0)%nat; [discriminate|].
  injection H as <-. simpl.
  pose proof (getall_scan_ok _ _ _ _ Hscan) as Heq. simpl in Heq.
  assert (Hp : Permutation (sort_KVPairs (elems ks)) (List.filter (is_match pattern) (values s))).
  { unfold sort_KVPairs. rewrite sort_by_perm, Heq. now apply Permutation_filter_bool. }
  split; [reflexivity|]. split; [exact Hp|]. split.
  - intros kv. rewrite <- filter_In_values_iff. split.
    + apply Permutation_in. exact Hp.
    + apply Permutation_in. symmetry. exact Hp.
  - apply sort_by_sorted.
Qed.

Lemma fold_append_values (ks : list KVPair) (acc : list string) :
  fold_left (fun vs kv => append vs (Value kv)) ks (GoSlice acc)
  = GoSlice (acc ++ List.map Value ks)%list.
Proof.
  revert acc. induction ks as [|kv ks IH]; intros acc; simpl.
  - now rewrite app_nil_r.
  - unfold append at 2. simpl. rewrite IH. now rewrite <- app_assoc.
Qed.

(** Claim C8: [GetAllValues(pattern)] fails exactly when [GetAll(pattern)]
    fails, with the same error; on success it returns the [Value]s of
    [GetAll]'s records in the same order; on failure its slice is the
    made empty slice [make([]string, 0)], not [nil]. *)
Theorem GetAllValues_spec (l : list KVPair) (pattern : string) :
  snd (GetAllValues_in l pattern) = snd (GetAll_in l pattern) /\
  (forall r, GetAll_in l pattern = (r, None) ->
     GetAllValues_in l pattern = (GoSlice (List.map Value (elems r)), None)) /\
  (forall r e, GetAll_in l pattern = (r, Some e) ->
     GetAllValues_in l pattern = (GoSlice [], Some e)).
Proof.
  unfold GetAllValues_in.
  destruct (GetAll_in l pattern) as [r [e|]] eqn:E; simpl.
  - split; [reflexivity|]. split; [discriminate|].
    intros r' e' H. injection H as <- <-. reflexivity.
  - split; [reflexivity|]. split.
    + intros r' H. injection H as <-. now rewrite fold_append_values.
    + discriminate.
Qed.

(** ** Errors of [filepath.Match] depend on the pattern only *)

Module MatchErrors.

(** Case on every [match] of the goal except the loop calls. *)
Ltac destruct_scrutinee :=
  match goal with
  | |- context [match ?x with _ => _ end] =>
    lazymatch x with
    | class_loop _ _ _ _ _ => fail
    | _ => destruct x eqn:?
    end
  end.

Lemma class_loop_indep (fuel : nat) (chunk : string) (r1 r2 : Z) (n : nat) (m1 m2 : bool) :
  option_map fst (class_loop fuel chunk r1 n m1) = option_map fst (class_loop fuel chunk r2 n m2).
Proof.
  revert chunk n m1 m2. induction fuel as [|f IH]; intros chunk n m1 m2;
    cbn [class_loop]; [reflexivity|].
  repeat destruct_scrutinee; try reflexivity; apply IH.
Qed.

Lemma matchChunk_loop_err_indep (fuel : nat) (chunk s1 s2 : string) (f1 f2 : bool) :
  snd (matchChunk_loop fuel chunk s1 f1) = snd (matchChunk_loop fuel chunk s2 f2).
Proof.
  revert chunk s1 s2 f1 f2. induction fuel as [|f IH]; intros chunk s1 s2 f1 f2;
    cbn [matchChunk_loop]; [reflexivity|].
  repeat destruct_scrutinee; try reflexivity; try apply IH.
  all: match goal with
  | |- snd (match class_loop ?N ?ch ?r1 ?n ?m with _ => _ end)
       = snd (match class_loop ?N ?ch ?r2 ?n ?m with _ => _ end) =>
    pose proof (class_loop_indep N ch r1 r2 n m m) as Hc;
    destruct (class_loop N ch r1 n m) as [[? ?]|];
    destruct (class_loop N ch r2 n m) as [[? ?]|];
    simpl in Hc; try discriminate; try reflexivity;
    injection Hc as <-; apply IH
  end.
Qed.

Lemma matchChunk_err_indep (chunk s1 s2 : string) :
  snd (matchChunk chunk s1) = snd (matchChunk chunk s2).
Proof. apply matchChunk_loop_err_indep. Qed.

(** A result of [matchChunk] is an error only as [("", false, ErrBadPattern)]. *)
Definition ok_shape (x : string * bool * option error) : Prop :=
  snd x = None \/ x = (EmptyString, false, Some ErrBadPattern).

Lemma matchChunk_loop_shape (fuel : nat) (chunk s : string) (failed : bool) :
  ok_shape (matchChunk_loop fuel chunk s failed).
Proof.
  revert chunk s failed. induction fuel as [|f IH]; intros chunk s failed;
    cbn [matchChunk_loop]; [left; reflexivity|].
  repeat case_match; try apply IH; unfold ok_shape; auto.
Qed.

Lemma matchChunk_ok_noerr (chunk s t : string) (e : option error) :
  matchChunk chunk s = (t, true, e) -> e = None.
Proof.
  intros H. destruct (matchChunk_loop_shape (S (String.length chunk)) chunk s false) as [H'|H'];
    unfold matchChunk in H; rewrite H in H'; simpl in H'; congruence.
Qed.

Lemma star_loop_noerr (chunk : string) (last : bool) (name : string) (e : error) :
  snd (matchChunk chunk EmptyString) = None -> star_loop chunk last name <> StarErr e.
Proof.
  intros H. induction name as [|c name IH]; simpl; [discriminate|].
  destruct (Ascii.eqb c "/"%char); [discriminate|].
  pose proof (matchChunk_err_indep chunk name EmptyString) as Hi. rewrite H in Hi.
  destruct (matchChunk chunk name) as [[t [|]] [e'|]]; simpl in Hi; try discriminate;
    try destruct (last && negb (is_empty t)); auto; discriminate.
Qed.

Lemma strip_stars_head (p p1 : string) (b : bool) :
  strip_stars p = (b, p1) ->
  match p1 with String c _ => Ascii.eqb c "*"%char = false | EmptyString => True end.
Proof.
  revert b p1. induction p as [|c p IH]; intros b p1 H; simpl in H.
  - injection H as _ <-. exact I.
  - destruct (Ascii.eqb c "*"%char) eqn:E.
    + destruct (strip_stars p) as [b' p1'] eqn:E'. injection H as _ <-. exact (IH _ _ eq_refl).
    + injection H as _ <-. exact E.
Qed.

Lemma scanChunk_empty_chunk (p chunk rest : string) (star : bool) :
  scanChunk p = (star, chunk, rest) -> is_empty chunk = true -> rest = EmptyString.
Proof.
  unfold scanChunk. destruct (strip_stars p) as [b p1] eqn:Hs.
  pose proof (strip_stars_head _ _ _ Hs) as Hh.
  destruct p1 as [|c p1]; simpl.
  - intros H _. now injection H as _ _ <-.
  - rewrite Hh. simpl.
    destruct (Ascii.eqb c "\"%char); [destruct p1; [|destruct (scan false p1)]|];
      [| |destruct (Ascii.eqb c "["%char); [destruct (scan true p1)|];
          [|destruct (Ascii.eqb c "]"%char); destruct (scan false p1)]];
      intros H; injection H as _ <- _; discriminate.
Qed.

Lemma validate_empty (fuel : nat) : snd (validate fuel EmptyString) = None.
Proof. destruct fuel; reflexivity. Qed.

(** [Match] errs exactly when the syntax check [validate] of the whole
    pattern does, whatever the name. *)
Lemma Match_loop_err (fuel : nat) (p n : string) :
  snd (Match_loop fuel p n) = snd (validate fuel p).
Proof.
  revert p n. induction fuel as [|f IH]; intros p n; cbn [Match_loop validate]; [reflexivity|].
  destruct (is_empty p); [reflexivity|].
  destruct (scanChunk p) as [[star chunk] rest] eqn:Hsc.
  destruct (star && is_empty chunk) eqn:Hse.
  - apply andb_true_iff in Hse as [_ He].
    rewrite (scanChunk_empty_chunk _ _ _ _ Hsc He).
    destruct chunk; [|discriminate]. simpl. symmetry. apply validate_empty.
  - pose proof (matchChunk_err_indep chunk n EmptyString) as Hi.
    pose proof (matchChunk_loop_shape (S (String.length chunk)) chunk n false) as Hsh.
    fold (matchChunk chunk n) in Hsh.
    destruct (matchChunk chunk EmptyString) as [[t0 ok0] e0].
    destruct (matchChunk chunk n) as [[t [|]] [e|]] eqn:Hm; simpl in Hi; subst e0.
    + destruct Hsh as [Hsh|Hsh]; discriminate.
    + destruct (is_empty t || negb (is_empty rest)); [apply IH|].
      destruct star; [|reflexivity].
      destruct (star_loop chunk (is_empty rest) n) as [t'|e'|] eqn:Hst; [apply IH| |reflexivity].
      exfalso. eapply star_loop_noerr; [|exact Hst]. rewrite <- (matchChunk_err_indep chunk n). now rewrite Hm.
    + reflexivity.
    + destruct star; [|reflexivity].
      destruct (star_loop chunk (is_empty rest) n) as [t'|e'|] eqn:Hst; [apply IH| |reflexivity].
      exfalso. eapply star_loop_noerr; [|exact Hst]. rewrite <- (matchChunk_err_indep chunk n). now rewrite Hm.
Qed.

Lemma validate_err_bad (fuel : nat) (p : string) (e : error) :
  snd (validate fuel p) = Some e -> e = ErrBadPattern.
Proof.
  revert p. induction fuel as [|f IH]; intros p; cbn [validate]; [discriminate|].
  destruct (is_empty p); [discriminate|].
  destruct (scanChunk p) as [[star chunk] rest].
  pose proof (matchChunk_loop_shape (S (String.length chunk)) chunk EmptyString false) as Hsh.
  fold (matchChunk chunk EmptyString) in Hsh.
  destruct (matchChunk chunk EmptyString) as [[t ok] [e'|]].
  - destruct Hsh as [Hsh|Hsh]; [discriminate|]. injection Hsh as _ _ ->. simpl. congruence.
  - apply IH.
Qed.

End MatchErrors.

(** [filepath.Match] reports [ErrBadPattern] for a name, so for every one. *)
Definition malformed (pattern : string) : Prop :=
  exists name, snd (Match pattern name) = Some ErrBadPattern.

Lemma Match_err_indep (pattern n1 n2 : string) :
  snd (Match pattern n1) = snd (Match pattern n2).
Proof. unfold Match. now rewrite !MatchErrors.Match_loop_err. Qed.

Lemma Match_err_bad (pattern name : string) (e : error) :
  snd (Match pattern name) = Some e -> e = ErrBadPattern.
Proof.
  unfold Match. rewrite MatchErrors.Match_loop_err. apply MatchErrors.validate_err_bad.
Qed.

Lemma malformed_Match (pattern name : string) :
  malformed pattern <-> snd (Match pattern name) = Some ErrBadPattern.
Proof.
  split.
  - intros [n Hn]. now rewrite (Match_err_indep _ name n).
  - intros H. now exists name.
Qed.

Lemma not_malformed_Match (pattern name : string) :
  ~ malformed pattern -> snd (Match pattern name) = None.
Proof.
  intros H. destruct (snd (Match pattern name)) as [e|] eqn:E; [|reflexivity].
  exfalso. apply H. rewrite (malformed_Match _ name). rewrite E. f_equal. eapply Match_err_bad. exact E.
Qed.


Lemma values_nil (s : Store) : values s = [] <-> s = ∅.
Proof.
  unfold values. split.
  - intros H. apply map_to_list_empty_iff. now apply fmap_nil_inv in H.
  - intros ->. now rewrite map_to_list_empty.
Qed.

Lemma getall_scan_inl_noerr (pattern : string) (l : list KVPair) (ks ks' : slice KVPair) :
  getall_scan pattern l ks = inl ks' ->
  forall kv, In kv l -> snd (Match pattern (Key kv)) = None.
Proof.
  revert ks. induction l as [|kv l IH]; intros ks H kv' Hin; [destruct Hin|].
  cbn [getall_scan] in H.
  destruct (Match pattern (Key kv)) as [b [e|]] eqn:Em; [destruct b; discriminate|].
  destruct Hin as [<-|Hin].
  - now rewrite Em.
  - destruct b; eapply IH; eassumption.
Qed.

Lemma filter_none {A} (f : A -> bool) (l : list A) :
  (forall x, In x l -> f x = false) -> List.filter f l = [].
Proof.
  induction l as [|x l IH]; intros H; simpl; [reflexivity|].
  rewrite (H x (or_introl eq_refl)). apply IH. intros y Hy. apply H. now right.
Qed.

(** Claim C3 (as stated): refuted on the empty store, where [GetAll]
    never calls the matcher: [GetAll("[")] fails with [ErrNoMatch] there
    although ["["] is malformed. *)
Lemma GetAll_bad_pattern_empty_store :
  malformed "[" /\ GetAll New "[" = (GoNil, Some ErrNoMatch).
Proof. split; [exists "x"; reflexivity | reflexivity]. Qed.

(** Claim C3 (amended): whatever order the [range] takes, [GetAll]
    fails with [ErrBadPattern] on a malformed pattern when the store is
    non-empty; with [ErrNoMatch] on the empty store (whatever the
    pattern) and when no key matches a well-formed pattern; and every
    failure is one of these two, with a [nil] slice. *)
Theorem GetAll_failures (s : Store) (l : list KVPair) (pattern : string) :
  l ≡ₚ values s ->
  (malformed pattern -> s <> ∅ -> GetAll_in l pattern = (GoNil, Some ErrBadPattern)) /\
  (s = ∅ -> GetAll_in l pattern = (GoNil, Some ErrNoMatch)) /\
  (~ malformed pattern ->
   (forall kv, In kv (values s) -> fst (Match pattern (Key kv)) = false) ->
   GetAll_in l pattern = (GoNil, Some ErrNoMatch)) /\
  (forall r e, GetAll_in l pattern = (r, Some e) ->
   r = GoNil /\
   ((e = ErrBadPattern /\ malformed pattern /\ s <> ∅) \/
    (e = ErrNoMatch /\ (~ malformed pattern \/ s = ∅) /\
     forall kv, In kv (values s) -> Match pattern (Key kv) = (false, None)))).
Proof.
  intros Hl.
  assert (Hin : forall kv, In kv l <-> In kv (values s)).
  { intros kv. split; apply Permutation_in; [exact Hl | symmetry; exact Hl]. }
  assert (Hnil : l = [] <-> s = ∅).
  { rewrite <- values_nil. split.
    - intros ->. apply Permutation_nil. exact Hl.
    - intros H. rewrite H in Hl. apply Permutation_nil. symmetry. exact Hl. }
  split; [|split; [|split]].
  - intros Hm Hs. destruct l as [|kv l']; [exfalso; now apply Hs, Hnil|].
    unfold GetAll_in. cbn [getall_scan].
    rewrite (malformed_Match _ (Key kv)) in Hm.
    destruct (Match pattern (Key kv)) as [b e]. simpl in Hm. subst e.
    destruct b; reflexivity.
  - intros Hs. apply Hnil in Hs. subst l. reflexivity.
  - intros Hm Hno. unfold GetAll_in.
    destruct (getall_scan_noerr pattern l (GoSlice [])) as [ks Hks].
    { intros kv _. now apply not_malformed_Match. }
    rewrite Hks. rewrite (getall_scan_ok _ _ _ _ Hks). simpl.
    replace (List.filter (is_match pattern) l) with (@nil KVPair); [reflexivity|].
    symmetry. apply filter_none. intros kv Hkv. unfold is_match.
    rewrite Hin in Hkv. specialize (Hno kv Hkv).
    destruct (Match pattern (Key kv)) as [b e]. simpl in Hno. subst b. reflexivity.
  - intros r e H. unfold GetAll_in in H.
    destruct (getall_scan pattern l (GoSlice [])) as [ks|e'] eqn:Hks.
    + destruct (List.length (elems ks) =? 0)%nat eqn:Hlen; [|discriminate].
      injection H as <- <-. split; [reflexivity|]. right.
      pose proof (getall_scan_ok _ _ _ _ Hks) as Heq. simpl in Heq.
      rewrite Heq in Hlen. apply Nat.eqb_eq, length_zero_iff_nil in Hlen.
      pose proof (getall_scan_inl_noerr _ _ _ _ Hks) as Hne.
      assert (Hall : forall kv, In kv (values s) -> Match pattern (Key kv) = (false, None)).
      { intros kv Hkv. apply Hin in Hkv.
        assert (Hf : is_match pattern kv = false).
        { destruct (is_match pattern kv) eqn:E; [|reflexivity].
          assert (In kv (List.filter (is_match pattern) l)) as Hc by (apply filter_In; auto).
          rewrite Hlen in Hc. destruct Hc. }
        specialize (Hne kv Hkv). unfold is_match in Hf.
        destruct (Match pattern (Key kv)) as [[|] [e0|]]; simpl in Hne; congruence. }
      split; [reflexivity|]. split; [|exact Hall].
      destruct l as [|kv l'].
      * right. now apply Hnil.
      * left. intros Hm. rewrite (malformed_Match _ (Key kv)) in Hm.
        rewrite (Hne kv (or_introl eq_refl)) in Hm. discriminate.
    + injection H as <- <-. split; [reflexivity|]. left.
      destruct (getall_scan_err _ _ _ _ Hks) as (kv & Hkv & Hm).
      pose proof (Match_err_bad _ _ _ Hm) as ->.
      split; [reflexivity|]. split; [now exists (Key kv)|].
      intros Hs. apply Hnil in Hs. subst l. destruct Hkv.
Qed.

(** ** [List] and [ListDir] *)

(** stdpp makes [String.append] opaque to [simpl]; unfold it here. *)
Local Arguments String.append !s1 s2 /.

Lemma append_empty_r (s : string) : (s ++ EmptyString)%string = s.
Proof. induction s as [|c s IH]; simpl; [reflexivity|now rewrite IH]. Qed.

Lemma length_append (s t : string) : String.length (s ++ t) = (String.length s + String.length t)%nat.
Proof. induction s as [|c s IH]; simpl; [reflexivity|now rewrite IH]. Qed.

Lemma HasPrefix_app (k path : string) :
  HasPrefix k path = true <-> exists r, k = (path ++ r)%string.
Proof.
  revert k. induction path as [|p path IH]; intros k; simpl.
  - split; [intros _; now exists k | reflexivity].
  - destruct k as [|c k]; split.
    + discriminate.
    + intros [r Hr]. discriminate.
    + intros H. apply andb_true_iff in H as [Hc Hk]. apply Ascii.eqb_eq in Hc. subst c.
      apply IH in Hk as [r ->]. now exists r.
    + intros [r Hr]. injection Hr as -> Hr. rewrite Ascii.eqb_refl. simpl.
      apply IH. now exists r.
Qed.

Lemma sdrop_app (path r : string) : FilepathMatch.sdrop (String.length path) (path ++ r)%string = r.
Proof. induction path as [|p path IH]; simpl; [reflexivity|exact IH]. Qed.

(** The remainder after the literal prefix, when [path] is a prefix of [k]. *)
Lemma TrimPrefix_app (path r : string) : TrimPrefix (path ++ r)%string path = r.
Proof.
  unfold TrimPrefix. replace (HasPrefix (path ++ r) path) with true.
  - apply sdrop_app.
  - symmetry. apply HasPrefix_app. now exists r.
Qed.

(** The byte skip [strippedKey[1:]] panics exactly on a key equal to [path]. *)
Lemma from1_trim_none (k path : string) :
  HasPrefix k path = true -> (from1 (TrimPrefix k path) = None <-> k = path).
Proof.
  intros H. apply HasPrefix_app in H as [r ->]. rewrite TrimPrefix_app.
  destruct r as [|c r]; simpl.
  - rewrite append_empty_r. tauto.
  - split; [discriminate|]. intros H.
    apply (f_equal String.length) in H. rewrite length_append in H. simpl in H. lia.
Qed.

Lemma HasPrefix_refl (path : string) : HasPrefix path path = true.
Proof. apply HasPrefix_app. exists EmptyString. now rewrite append_empty_r. Qed.

Lemma list_scan_none (path : string) (l : list KVPair) (m : gset string) :
  list_scan path l m = None <-> exists kv, In kv l /\ Key kv = path.
Proof.
  revert m. induction l as [|kv l IH]; intros m; cbn [list_scan].
  - split; [discriminate|]. intros (kv & [] & _).
  - destruct (HasPrefix (Key kv) path) eqn:Hp.
    + destruct (from1 (TrimPrefix (Key kv) path)) as [x|] eqn:Ef.
      * rewrite IH. split.
        -- intros (kv' & Hin & Hk). exists kv'. split; [now right|exact Hk].
        -- intros (kv' & [<-|Hin] & Hk).
           ++ apply (from1_trim_none _ _ Hp) in Hk. congruence.
           ++ eauto.
      * split; [|reflexivity]. intros _. exists kv. split; [now left|].
        now apply (from1_trim_none _ _ Hp).
    + rewrite IH. split.
      * intros (kv' & Hin & Hk). exists kv'. split; [now right|exact Hk].
      * intros (kv' & [<-|Hin] & Hk); [|eauto].
        rewrite Hk, HasPrefix_refl in Hp. discriminate.
Qed.

Lemma listdir_scan_none (path : string) (l : list KVPair) (m : gset string) :
  listdir_scan path l m = None <-> exists kv, In kv l /\ Key kv = path.
Proof.
  revert m. induction l as [|kv l IH]; intros m; cbn [listdir_scan].
  - split; [discriminate|]. intros (kv & [] & _).
  - destruct (HasPrefix (Key kv) path) eqn:Hp.
    + destruct (from1 (TrimPrefix (Key kv) path)) as [x|] eqn:Ef.
      * assert (Hr : forall m', listdir_scan path l m' = None <-> exists kv0, In kv0 (kv :: l) /\ Key kv0 = path).
        { intros m'. rewrite IH. split.
          - intros (kv' & Hin & Hk). exists kv'. split; [now right|exact Hk].
          - intros (kv' & [<-|Hin] & Hk).
            + apply (from1_trim_none _ _ Hp) in Hk. congruence.
            + eauto. }
        destruct (List.length (SplitN2 x) <? 2)%nat; apply Hr.
      * split; [|reflexivity]. intros _. exists kv. split; [now left|].
        now apply (from1_trim_none _ _ Hp).
    + rewrite IH. split.
      * intros (kv' & Hin & Hk). exists kv'. split; [now right|exact Hk].
      * intros (kv' & [<-|Hin] & Hk); [|eauto].
        rewrite Hk, HasPrefix_refl in Hp. discriminate.
Qed.

(** Claim C5: [List(path)] and [ListDir(path)] are not failure-free: each
    panics (the slice expression [strippedKey[1:]] goes out of range)
    exactly when some key equals [path]. *)
Theorem List_ListDir_panic (l : list KVPair) (path : string) :
  (List_in l path = None <-> exists kv, In kv l /\ Key kv = path) /\
  (ListDir_in l path = None <-> exists kv, In kv l /\ Key kv = path).
Proof.
  unfold List_in, ListDir_in. split.
  - rewrite <- (list_scan_none path l ∅). destruct (list_scan path l ∅); split; congruence.
  - rewrite <- (listdir_scan_none path l ∅). destruct (listdir_scan path l ∅); split; congruence.
Qed.

(** Claim C4: at a store holding [/app] beside [/app/db/host],
    [/app/db/port] and [/app/cache/ttl], [List("/app")] panics instead of
    returning the segments. *)
Theorem List_panics_on_path_key : List (Set_ app_store "/app" "x") "/app" = None.
Proof. vm_compute. reflexivity. Qed.

(** Claim C6: at the same store, [ListDir("/app")] panics as well. *)
Theorem ListDir_panics_on_path_key : ListDir (Set_ app_store "/app" "x") "/app" = None.
Proof. vm_compute. reflexivity. Qed.

(** Away from the panic, [List] and [ListDir] compute what the spec
    describes: the segment of a key under [path] is found by dropping the
    literal prefix and one more byte, then keeping the text before the
    next ['/']. *)
Definition segment_of (path key : string) : string :=
  fst (cut_sep (FilepathMatch.sdrop (S (String.length path)) key)).

(** A second segment follows the first one. *)
Definition has_child (path key : string) : bool :=
  match snd (cut_sep (FilepathMatch.sdrop (S (String.length path)) key)) with
  | Some _ => true
  | None => false
  end.

Lemma from1_trim_some (k path y : string) :
  HasPrefix k path = true -> from1 (TrimPrefix k path) = Some y ->
  y = FilepathMatch.sdrop (S (String.length path)) k.
Proof.
  intros Hp. apply HasPrefix_app in Hp as [r ->]. rewrite TrimPrefix_app.
  induction path as [|p path IH]; simpl.
  - destruct r; simpl; congruence.
  - exact IH.
Qed.

Lemma first_item_SplitN2 (y : string) : first_item (SplitN2 y) = fst (cut_sep y).
Proof. unfold SplitN2. destruct (cut_sep y) as [a [b|]]; reflexivity. Qed.

Lemma length_SplitN2 (y : string) :
  (List.length (SplitN2 y) <? 2)%nat = match snd (cut_sep y) with Some _ => false | None => true end.
Proof. unfold SplitN2. destruct (cut_sep y) as [a [b|]]; reflexivity. Qed.

Lemma ex_cons {A} (R : A -> Prop) (a : A) (l : list A) :
  (exists b, In b (a :: l) /\ R b) <-> R a \/ exists b, In b l /\ R b.
Proof.
  simpl. split.
  - intros (b & [<-|H] & Hr); [now left | right; eauto].
  - intros [H|(b & H & Hr)]; [exists a | exists b]; auto.
Qed.

Lemma list_scan_some (path : string) (l : list KVPair) (m m' : gset string) :
  list_scan path l m = Some m' ->
  forall x, x ∈ m' <-> x ∈ m \/
    exists kv, In kv l /\ HasPrefix (Key kv) path = true /\ x = segment_of path (Key kv).
Proof.
  revert m. induction l as [|kv l IH]; intros m H x; cbn [list_scan] in H.
  - injection H as <-. split; [now left|]. intros [Hx|(kv & [] & _)]. exact Hx.
  - rewrite (ex_cons (fun kv => HasPrefix (Key kv) path = true /\ x = segment_of path (Key kv))).
    destruct (HasPrefix (Key kv) path) eqn:Hp.
    + destruct (from1 (TrimPrefix (Key kv) path)) as [y|] eqn:Ef; [|discriminate].
      rewrite (IH _ H x), elem_of_union, elem_of_singleton, first_item_SplitN2.
      rewrite (from1_trim_some _ _ _ Hp Ef). fold (segment_of path (Key kv)). tauto.
    + rewrite (IH _ H x). assert (false <> true) by discriminate. tauto.
Qed.

Lemma listdir_scan_some (path : string) (l : list KVPair) (m m' : gset string) :
  listdir_scan path l m = Some m' ->
  forall x, x ∈ m' <-> x ∈ m \/
    exists kv, In kv l /\ HasPrefix (Key kv) path = true /\
      has_child path (Key kv) = true /\ x = segment_of path (Key kv).
Proof.
  revert m. induction l as [|kv l IH]; intros m H x; cbn [listdir_scan] in H.
  - injection H as <-. split; [now left|]. intros [Hx|(kv & [] & _)]. exact Hx.
  - rewrite (ex_cons (fun kv => HasPrefix (Key kv) path = true /\
      has_child path (Key kv) = true /\ x = segment_of path (Key kv))).
    destruct (HasPrefix (Key kv) path) eqn:Hp.
    + destruct (from1 (TrimPrefix (Key kv) path)) as [y|] eqn:Ef; [|discriminate].
      pose proof (from1_trim_some _ _ _ Hp Ef) as Hy.
      rewrite length_SplitN2 in H.
      destruct (snd (cut_sep y)) as [b|] eqn:Ec.
      * assert (Hc : has_child path (Key kv) = true) by (unfold has_child; now rewrite <- Hy, Ec).
        rewrite (IH _ H x), elem_of_union, elem_of_singleton, first_item_SplitN2.
        rewrite Hy. fold (segment_of path (Key kv)). tauto.
      * assert (Hc : has_child path (Key kv) = false) by (unfold has_child; now rewrite <- Hy, Ec).
        rewrite (IH _ H x), Hc. assert (false <> true) by discriminate. tauto.
    + rewrite (IH _ H x). assert (false <> true) by discriminate. tauto.
Qed.

Lemma sorted_elements (m : gset string) :
  Sorted (key_le (fun s => s)) (sort_Strings (elements m)) /\ NoDup (sort_Strings (elements m)) /\
  forall x, In x (sort_Strings (elements m)) <-> x ∈ m.
Proof.
  unfold sort_Strings. split; [apply sort_by_sorted|]. split.
  - rewrite (sort_by_perm _ (elements m)). apply NoDup_elements.
  - intros x. rewrite <- elem_of_elements, list_elem_of_In. split; apply Permutation_in;
      [apply sort_by_perm | symmetry; apply sort_by_perm].
Qed.

(** When no key equals [path], [List(path)] returns the sorted, duplicate
    free segments of the keys under the literal prefix [path]. *)
Lemma List_segments (l : list KVPair) (path : string) :
  (forall kv, In kv l -> Key kv <> path) ->
  exists vs, List_in l path = Some vs /\
    (forall x, In x vs <-> exists kv, In kv l /\ HasPrefix (Key kv) path = true /\
                                     x = segment_of path (Key kv)) /\
    Sorted (key_le (fun s => s)) vs /\ NoDup vs.
Proof.
  intros Hk. unfold List_in.
  destruct (list_scan path l ∅) as [m|] eqn:E.
  - exists (sort_Strings (elements m)). split; [reflexivity|].
    destruct (sorted_elements m) as (Hs & Hn & Hi). split; [|auto].
    intros x. rewrite Hi, (list_scan_some _ _ _ _ E x). set_solver.
  - apply list_scan_none in E as (kv & Hin & Hkv). exfalso. exact (Hk kv Hin Hkv).
Qed.

(** When no key equals [path], [ListDir(path)] returns those segments of
    [List(path)] that some key continues with a further ['/'] segment. *)
Lemma ListDir_segments (l : list KVPair) (path : string) :
  (forall kv, In kv l -> Key kv <> path) ->
  exists ws, ListDir_in l path = Some ws /\
    (forall x, In x ws <-> exists kv, In kv l /\ HasPrefix (Key kv) path = true /\
                  has_child path (Key kv) = true /\ x = segment_of path (Key kv)) /\
    Sorted (key_le (fun s => s)) ws /\ NoDup ws.
Proof.
  intros Hk. unfold ListDir_in.
  destruct (listdir_scan path l ∅) as [m|] eqn:E.
  - exists (sort_Strings (elements m)). split; [reflexivity|].
    destruct (sorted_elements m) as (Hs & Hn & Hi). split; [|auto].
    intros x. rewrite Hi, (listdir_scan_some _ _ _ _ E x). set_solver.
  - apply listdir_scan_none in E as (kv & Hin & Hkv). exfalso. exact (Hk kv Hin Hkv).
Qed.

(** ** [filepath.Match] on patterns without metacharacters *)

Lemma literal_cons (c : ascii) (p : string) :
  literal (String c p) = true ->
  Ascii.eqb c "*"%char = false /\ Ascii.eqb c "?"%char = false /\
  Ascii.eqb c "["%char = false /\ Ascii.eqb c "\"%char = false /\ literal p = true.
Proof.
  simpl. intros H. apply andb_true_iff in H as [H Hp].
  destruct (Ascii.eqb c "*"%char), (Ascii.eqb c "?"%char), (Ascii.eqb c "["%char),
    (Ascii.eqb c "\"%char); simpl in H; try discriminate. auto.
Qed.

Lemma scan_literal (p : string) : literal p = true -> scan false p = (p, EmptyString).
Proof.
  induction p as [|c p IH]; intros H; [reflexivity|].
  apply literal_cons in H as (H1 & H2 & H3 & H4 & Hp). simpl.
  rewrite H4, H3, H1. destruct (Ascii.eqb c "]"%char); simpl; rewrite (IH Hp); reflexivity.
Qed.

Lemma scanChunk_literal (p : string) : literal p = true -> scanChunk p = (false, p, EmptyString).
Proof.
  intros H. unfold scanChunk.
  assert (Hs : strip_stars p = (false, p)).
  { destruct p as [|c p]; [reflexivity|]. apply literal_cons in H as (H1 & _). simpl. now rewrite H1. }
  rewrite Hs, (scan_literal p H). reflexivity.
Qed.

Lemma matchChunk_loop_literal (fuel : nat) (chunk s : string) (failed : bool) :
  literal chunk = true -> (String.length chunk < fuel)%nat ->
  matchChunk_loop fuel chunk s failed =
    if failed then (EmptyString, false, None)
    else if HasPrefix s chunk then (sdrop (String.length chunk) s, true, None)
    else (EmptyString, false, None).
Proof.
  revert chunk s failed. induction fuel as [|f IH]; intros chunk s failed Hl Hf; [lia|].
  destruct chunk as [|c chunk].
  - destruct failed; reflexivity.
  - pose proof Hl as (H1 & H2 & H3 & H4 & Hp)%literal_cons. simpl in Hf.
    cbn [matchChunk_loop]. rewrite H3, H2, H4.
    destruct failed, s as [|c0 s]; simpl; rewrite ?(IH chunk _ _ Hp) by lia; try reflexivity.
    destruct (Ascii.eqb c c0); reflexivity.
Qed.

Lemma matchChunk_literal (chunk s : string) :
  literal chunk = true ->
  matchChunk chunk s =
    if HasPrefix s chunk then (sdrop (String.length chunk) s, true, None)
    else (EmptyString, false, None).
Proof. intros H. unfold matchChunk. rewrite matchChunk_loop_literal by (auto; lia). reflexivity. Qed.

(** A pattern without metacharacters matches exactly itself. *)
Lemma Match_literal (p name : string) :
  literal p = true -> Match p name = (String.eqb p name, None).
Proof.
  intros Hl. destruct p as [|c p'] eqn:Ep.
  - destruct name; reflexivity.
  - rewrite <- Ep in *. unfold Match.
    assert (Hlen : exists n, String.length p = S n) by (subst p; simpl; eauto).
    destruct Hlen as [n Hn]. rewrite Hn. cbn [Match_loop].
    replace (is_empty p) with false by (subst p; reflexivity).
    rewrite (scanChunk_literal p Hl). simpl andb. cbv iota beta.
    rewrite (matchChunk_literal p name Hl).
    destruct (HasPrefix name p) eqn:Hp.
    + apply HasPrefix_app in Hp as [r ->]. rewrite sdrop_app.
      destruct r as [|c0 r]; simpl.
      * rewrite append_empty_r, String.eqb_refl. reflexivity.
      * destruct (String.eqb p (p ++ String c0 r)) eqn:E; [|destruct n; reflexivity].
        apply String.eqb_eq in E. apply (f_equal String.length) in E.
        rewrite length_append in E. simpl in E. lia.
    + destruct (String.eqb p name) eqn:E; [|destruct n; reflexivity].
      apply String.eqb_eq in E. subst name. rewrite HasPrefix_refl in Hp. discriminate.
Qed.

(** ** Further properties of the queries *)

Lemma string_leb_trans (x y z : string) :
  String.leb x y = true -> String.leb y z = true -> String.leb x z = true.
Proof.
  unfold String.leb. revert y z. induction x as [|a x IH]; intros [|b y] [|c z]; simpl;
    try congruence; try discriminate.
  destruct (Ascii.compare a b) eqn:Eab, (Ascii.compare b c) eqn:Ebc; try discriminate.
  - apply Ascii.compare_eq_iff in Eab, Ebc. subst. unfold Ascii.compare. rewrite N.compare_refl. apply IH.
  - apply Ascii.compare_eq_iff in Eab. subst. now rewrite Ebc.
  - apply Ascii.compare_eq_iff in Ebc. subst. now rewrite Eab.
  - unfold Ascii.compare in *. rewrite N.compare_lt_iff in Eab, Ebc. intros _ _.
    replace (N.compare (N_of_ascii a) (N_of_ascii c)) with Lt by (symmetry; apply N.compare_lt_iff; lia).
    reflexivity.
Qed.

Section SortUnique.
Context {A : Type} (key : A -> string).

Lemma key_le_trans : Transitive (key_le key).
Proof. intros a b c. unfold key_le. apply string_leb_trans. Qed.

Lemma NoDup_map_filter (f : A -> bool) (l : list A) :
  NoDup (List.map key l) -> NoDup (List.map key (List.filter f l)).
Proof.
  induction l as [|x l IH]; simpl; intros H; [constructor|].
  inversion H as [|? ? Hx Hl]; subst.
  destruct (f x); simpl; [constructor|]; auto.
  rewrite list_elem_of_In in Hx |- *. intros Hin. apply Hx.
  apply in_map_iff in Hin as (y & Hy & Hin).
  apply filter_In in Hin as [Hin _]. apply in_map_iff. eauto.
Qed.

Lemma sorted_perm_unique (a b : list A) :
  Sorted (key_le key) a -> Sorted (key_le key) b -> Permutation a b ->
  NoDup (List.map key a) -> a = b.
Proof.
  intros Ha Hb. apply Sorted_StronglySorted in Ha; [|apply key_le_trans].
  apply Sorted_StronglySorted in Hb; [|apply key_le_trans].
  revert b Hb. induction Ha as [|x a Ha IH Hx]; intros b Hb Hp Hn.
  - symmetry. now apply Permutation_nil.
  - destruct b as [|y b]; [apply Permutation_sym, Permutation_nil in Hp; discriminate|].
    inversion Hb as [|? ? Hb' Hy]; subst.
    inversion Hn as [|? ? Hxn Hn']; subst.
    assert (Hxb : In x (y :: b)) by (eapply Permutation_in; [exact Hp|left; reflexivity]).
    assert (Hya : In y (x :: a)) by (eapply Permutation_in; [symmetry; exact Hp|left; reflexivity]).
    assert (Hk : key x = key y).
    { destruct Hxb as [<-|Hxb]; [reflexivity|].
      destruct Hya as [<-|Hya]; [reflexivity|].
      pose proof (proj1 (Forall_forall _ _) Hy x (proj2 (list_elem_of_In _ _) Hxb)) as H1.
      pose proof (proj1 (Forall_forall _ _) Hx y (proj2 (list_elem_of_In _ _) Hya)) as H2.
      unfold key_le in H1, H2. symmetry. exact (String.leb_antisym _ _ H1 H2). }
    destruct Hya as [<-|Hya].
    + f_equal. apply IH; auto. eapply Permutation_cons_inv. exact Hp.
    + exfalso. apply Hxn. rewrite list_elem_of_In, Hk. apply in_map. exact Hya.
Qed.

Lemma sorted_strict (a : list A) :
  StronglySorted (key_le key) a -> NoDup (List.map key a) ->
  StronglySorted (fun x y => String.ltb (key x) (key y) = true) a.
Proof.
  induction 1 as [|x a Ha IH Hx]; intros Hn; constructor.
  - apply IH. now inversion Hn.
  - inversion Hn as [|? ? Hxn _]; subst.
    apply Forall_forall. intros y Hy. pose proof (proj1 (Forall_forall _ _) Hx y Hy) as Hle.
    unfold key_le, String.leb, String.ltb in *.
    destruct (String.compare (key x) (key y)) eqn:E; try discriminate; [|reflexivity].
    apply String.compare_eq_iff in E. exfalso. apply Hxn. rewrite E. now apply list_elem_of_fmap_2.
Qed.

End SortUnique.

Lemma consistent_keys_NoDup (s : Store) :
  keys_consistent s -> NoDup (List.map Key (values s)).
Proof.
  intros Hs. unfold values.
  assert (E : List.map Key ((map_to_list s).*2) = (map_to_list s).*1).
  { rewrite <- list_fmap_compose. unfold fmap, list_fmap. fold (List.map (Key ∘ snd) (map_to_list s)).
    apply List.map_ext_in. intros [k kv] Hin. simpl.
    apply Hs. apply elem_of_map_to_list. apply list_elem_of_In. exact Hin. }
  rewrite E. apply NoDup_fst_map_to_list.
Qed.

(** A successful [GetAll] returns the sorted matches of the scan. *)
Lemma GetAll_in_ok (l : list KVPair) (pattern : string) (r : slice KVPair) :
  GetAll_in l pattern = (r, None) ->
  r = GoSlice (sort_KVPairs (List.filter (is_match pattern) l)) /\
  List.filter (is_match pattern) l <> [].
Proof.
  unfold GetAll_in. destruct (getall_scan pattern l (GoSlice [])) as [ks|e] eqn:E; [|discriminate].
  apply getall_scan_ok in E. simpl in E. rewrite E.
  destruct (List.length (List.filter (is_match pattern) l) =? 0)%nat eqn:El; [discriminate|].
  intros H. injection H as <-. split; [reflexivity|].
  intros Hn. rewrite Hn in El. discriminate.
Qed.

Lemma values_perm_delete (s : Store) (k : string) (kv : KVPair) :
  s !! k = Some kv -> values s ≡ₚ kv :: values (delete k s).
Proof.
  intros H. unfold values. rewrite <- (map_to_list_delete s k kv H). reflexivity.
Qed.

Lemma In_values_delete (s : Store) (k : string) (kv : KVPair) :
  keys_consistent s -> In kv (values (delete k s)) -> Key kv <> k.
Proof.
  intros Hs Hin. apply In_values in Hin as [k' Hk'].
  destruct (decide (k' = k)) as [->|Hne]; [by rewrite lookup_delete_eq in Hk'|].
  rewrite lookup_delete_ne in Hk' by congruence. rewrite (Hs k' kv Hk'). exact Hne.
Qed.

(** Under the invariant [map[k].key == k], [GetAll] of a key without
    glob metacharacters ([*], [?], [[], [\\]) returns the one record stored
    under it, or [ErrNoMatch] if there is none, in any [range] order. *)
Theorem GetAll_literal (s : Store) (l : list KVPair) (k : string) :
  keys_consistent s -> l ≡ₚ values s -> literal k = true ->
  GetAll_in l k = match s !! k with
                  | Some kv => (GoSlice [kv], None)
                  | None => (GoNil, Some ErrNoMatch)
                  end.
Proof.
  intros Hs Hl Hk.
  assert (Hm : forall kv, is_match k kv = String.eqb k (Key kv)).
  { intros kv. unfold is_match. rewrite (Match_literal k (Key kv) Hk). now destruct (String.eqb k (Key kv)). }
  destruct (getall_scan_noerr k l (GoSlice [])) as [ks E].
  { intros kv _. now rewrite (Match_literal k (Key kv) Hk). }
  unfold GetAll_in. rewrite E. apply getall_scan_ok in E. simpl in E. rewrite E.
  pose proof (Permutation_filter_bool (is_match k) _ _ Hl) as Hf.
  assert (Hnone : forall l', (forall kv, In kv l' -> Key kv <> k) -> List.filter (is_match k) l' = []).
  { intros l' H'. apply filter_none. intros kv Hin. rewrite Hm.
    apply String.eqb_neq. intros Heq. now apply (H' kv Hin). }
  destruct (s !! k) as [kv|] eqn:Ek.
  - pose proof (Permutation_trans Hf (Permutation_filter_bool (is_match k) _ _
      (values_perm_delete s k kv Ek))) as Hf'. clear Hf. rename Hf' into Hf. simpl in Hf.
    rewrite Hm, (Hs k kv Ek), String.eqb_refl in Hf.
    rewrite (Hnone (values (delete k s)) (fun kv0 => In_values_delete s k kv0 Hs)) in Hf.
    apply Permutation_sym, Permutation_length_1_inv in Hf. rewrite Hf. reflexivity.
  - rewrite (Hnone (values s)) in Hf.
    + apply Permutation_sym, Permutation_nil in Hf. rewrite Hf. reflexivity.
    + intros kv Hin Hkv. apply In_values in Hin as [k' Hk'].
      rewrite (Hs k' kv Hk') in Hkv. subst k'. congruence.
Qed.

(** After [Set(k, v)], [GetAll(pattern)] for a pattern that matches [k]
    succeeds and its result contains [KVPair{k, v}]. *)
Theorem GetAll_after_Set (s : Store) (l : list KVPair) (pattern k v : string) :
  l ≡ₚ values (Set_ s k v) -> Match pattern k = (true, None) ->
  exists r, GetAll_in l pattern = (r, None) /\ In {| Key := k; Value := v |} (elems r).
Proof.
  intros Hl Hm.
  assert (Hin : In {| Key := k; Value := v |} l).
  { eapply Permutation_in; [symmetry; exact Hl|]. apply In_values. exists k.
    unfold Set_. apply lookup_insert_eq. }
  assert (Hnm : ~ malformed pattern).
  { intros H. apply (malformed_Match pattern k) in H. rewrite Hm in H. discriminate. }
  destruct (getall_scan_noerr pattern l (GoSlice [])) as [ks E].
  { intros kv _. now apply not_malformed_Match. }
  assert (Hf : In {| Key := k; Value := v |} (List.filter (is_match pattern) l)).
  { apply filter_In. split; [exact Hin|]. apply is_match_true. exact Hm. }
  unfold GetAll_in. rewrite E. apply getall_scan_ok in E. simpl in E. rewrite E.
  destruct (List.length (List.filter (is_match pattern) l) =? 0)%nat eqn:El.
  - apply Nat.eqb_eq, length_zero_iff_nil in El. rewrite El in Hf. destruct Hf.
  - eexists. split; [reflexivity|]. simpl. unfold sort_KVPairs.
    eapply Permutation_in; [symmetry; apply sort_by_perm|exact Hf].
Qed.

(** Under the invariant, after [Del(k)] no record a successful [GetAll]
    returns has the key [k]. *)
Theorem GetAll_after_Del (s : Store) (l : list KVPair) (pattern k : string) (r : slice KVPair) :
  keys_consistent s -> l ≡ₚ values (Del s k) -> GetAll_in l pattern = (r, None) ->
  forall kv, In kv (elems r) -> Key kv <> k.
Proof.
  intros Hs Hl H kv Hin. apply GetAll_in_ok in H as [-> _]. simpl in Hin.
  unfold sort_KVPairs in Hin. eapply Permutation_in in Hin; [|apply sort_by_perm].
  apply filter_In in Hin as [Hin _]. eapply Permutation_in in Hin; [|exact Hl].
  exact (In_values_delete s k kv Hs Hin).
Qed.

(** Under the invariant, a successful [GetAll] returns a non-empty
    slice whose keys are pairwise distinct and strictly ascending. *)
Theorem GetAll_distinct_keys (s : Store) (l : list KVPair) (pattern : string) (r : slice KVPair) :
  keys_consistent s -> l ≡ₚ values s -> GetAll_in l pattern = (r, None) ->
  elems r <> [] /\ NoDup (List.map Key (elems r)) /\
  StronglySorted (fun a b => String.ltb (Key a) (Key b) = true) (elems r).
Proof.
  intros Hs Hl H. apply GetAll_in_ok in H as [-> Hne]. simpl.
  set (f := List.filter (is_match pattern) l) in *.
  assert (Hp : Permutation (sort_KVPairs f) f) by apply sort_by_perm.
  assert (Hn : NoDup (List.map Key f)).
  { apply NoDup_map_filter. rewrite (Permutation_map Key Hl). now apply consistent_keys_NoDup. }
  assert (Hn' : NoDup (List.map Key (sort_KVPairs f))) by (now rewrite (Permutation_map Key Hp)).
  split; [|split; [exact Hn'|]].
  - intros E. rewrite E in Hp. apply Hne. now apply Permutation_nil.
  - apply sorted_strict; [|exact Hn']. apply Sorted_StronglySorted; [apply key_le_trans|].
    apply sort_by_sorted.
Qed.

(** Under the invariant, [GetAll] and [GetAllValues] give the same
    result whatever order the [range] visits the map in. *)
Theorem GetAll_order_indep (s : Store) (l1 l2 : list KVPair) (pattern : string) :
  keys_consistent s -> l1 ≡ₚ values s -> l2 ≡ₚ values s ->
  GetAll_in l1 pattern = GetAll_in l2 pattern /\
  GetAllValues_in l1 pattern = GetAllValues_in l2 pattern.
Proof.
  intros Hs H1 H2.
  assert (H12 : l1 ≡ₚ l2) by (rewrite H1, H2; reflexivity).
  assert (E : GetAll_in l1 pattern = GetAll_in l2 pattern).
  { unfold GetAll_in.
    destruct (getall_scan pattern l1 (GoSlice [])) as [ks1|e1] eqn:E1,
      (getall_scan pattern l2 (GoSlice [])) as [ks2|e2] eqn:E2.
    - apply getall_scan_ok in E1, E2. simpl in E1, E2. rewrite E1, E2.
      pose proof (Permutation_filter_bool (is_match pattern) _ _ H12) as Hf.
      rewrite (Permutation_length Hf).
      destruct (List.length (List.filter (is_match pattern) l2) =? 0)%nat; [reflexivity|].
      do 2 f_equal. unfold sort_KVPairs. apply (sorted_perm_unique Key).
      + apply sort_by_sorted.
      + apply sort_by_sorted.
      + rewrite !sort_by_perm. exact Hf.
      + rewrite (Permutation_map Key (sort_by_perm Key _)).
        apply NoDup_map_filter. rewrite (Permutation_map Key H1). now apply consistent_keys_NoDup.
    - exfalso. apply getall_scan_err in E2 as (kv & Hin & He).
      rewrite (getall_scan_inl_noerr _ _ _ _ E1 kv) in He; [discriminate|].
      eapply Permutation_in; [symmetry; exact H12|exact Hin].
    - exfalso. apply getall_scan_err in E1 as (kv & Hin & He).
      rewrite (getall_scan_inl_noerr _ _ _ _ E2 kv) in He; [discriminate|].
      eapply Permutation_in; [exact H12|exact Hin].
    - apply getall_scan_err in E1 as (kv1 & _ & He1), E2 as (kv2 & _ & He2).
      apply Match_err_bad in He1, He2. subst. reflexivity. }
  split; [exact E|]. unfold GetAllValues_in. now rewrite E.
Qed.

Lemma perm_exists_key (l1 l2 : list KVPair) (P : KVPair -> Prop) :
  l1 ≡ₚ l2 -> (exists kv, In kv l1 /\ P kv) <-> (exists kv, In kv l2 /\ P kv).
Proof.
  intros H. split; intros (kv & Hin & Hp); exists kv; (split; [|exact Hp]).
  - eapply Permutation_in; [exact H|exact Hin].
  - eapply Permutation_in; [symmetry; exact H|exact Hin].
Qed.

(** [List] and [ListDir] give the same result (or both panic) whatever
    order the [range] visits the map in. *)
Theorem List_order_indep (l1 l2 : list KVPair) (path : string) :
  l1 ≡ₚ l2 -> List_in l1 path = List_in l2 path /\ ListDir_in l1 path = ListDir_in l2 path.
Proof.
  intros H. unfold List_in, ListDir_in. split.
  - destruct (list_scan path l1 ∅) as [m1|] eqn:E1, (list_scan path l2 ∅) as [m2|] eqn:E2.
    + assert (m1 = m2) as -> ; [|reflexivity].
      apply leibniz_equiv. intros x.
      rewrite (list_scan_some _ _ _ _ E1 x), (list_scan_some _ _ _ _ E2 x).
      now rewrite (perm_exists_key l1 l2 _ H).
    + apply list_scan_none in E2. rewrite <- (perm_exists_key l1 l2 _ H) in E2.
      apply (proj2 (list_scan_none path l1 ∅)) in E2. congruence.
    + apply list_scan_none in E1. rewrite (perm_exists_key l1 l2 _ H) in E1.
      apply (proj2 (list_scan_none path l2 ∅)) in E1. congruence.
    + reflexivity.
  - destruct (listdir_scan path l1 ∅) as [m1|] eqn:E1, (listdir_scan path l2 ∅) as [m2|] eqn:E2.
    + assert (m1 = m2) as -> ; [|reflexivity].
      apply leibniz_equiv. intros x.
      rewrite (listdir_scan_some _ _ _ _ E1 x), (listdir_scan_some _ _ _ _ E2 x).
      now rewrite (perm_exists_key l1 l2 _ H).
    + apply listdir_scan_none in E2. rewrite <- (perm_exists_key l1 l2 _ H) in E2.
      apply (proj2 (listdir_scan_none path l1 ∅)) in E2. congruence.
    + apply listdir_scan_none in E1. rewrite (perm_exists_key l1 l2 _ H) in E1.
      apply (proj2 (listdir_scan_none path l2 ∅)) in E1. congruence.
    + reflexivity.
Qed.

(** Whenever [ListDir(path)] returns, [List(path)] returns too, and
    every name [ListDir] lists is listed by [List]. *)
Theorem ListDir_subset_List (l : list KVPair) (path : string) (ws : list string) :
  ListDir_in l path = Some ws ->
  exists vs, List_in l path = Some vs /\ forall x, In x ws -> In x vs.
Proof.
  unfold ListDir_in, List_in. destruct (listdir_scan path l ∅) as [m|] eqn:E; [|discriminate].
  intros Hw. injection Hw as <-.
  destruct (list_scan path l ∅) as [m'|] eqn:E'.
  - eexists. split; [reflexivity|]. intros x Hx.
    apply (proj2 (proj2 (sorted_elements m'))). apply (proj2 (proj2 (sorted_elements m))) in Hx.
    apply (listdir_scan_some _ _ _ _ E x) in Hx. apply (list_scan_some _ _ _ _ E' x).
    set_solver.
  - exfalso. apply list_scan_none in E'. apply (proj2 (listdir_scan_none path l ∅)) in E'. congruence.
Qed.

Lemma sort_elements_nil (m : gset string) :
  sort_Strings (elements m) = [] <-> forall x, x ∉ m.
Proof.
  split.
  - intros H x Hx. apply (proj2 (proj2 (sorted_elements m))) in Hx. rewrite H in Hx. destruct Hx.
  - intros H. destruct (sort_Strings (elements m)) as [|x vs] eqn:E; [reflexivity|].
    exfalso. apply (H x). apply (proj2 (sorted_elements m)). rewrite E. left. reflexivity.
Qed.

(** [List(path)] returns the empty slice exactly when no key has [path]
    as a prefix; [ListDir(path)] exactly when every key under [path] is
    different from [path] and has no second segment. *)
Theorem List_empty_iff (l : list KVPair) (path : string) :
  (List_in l path = Some [] <-> forall kv, In kv l -> HasPrefix (Key kv) path = false) /\
  (ListDir_in l path = Some [] <->
   forall kv, In kv l -> HasPrefix (Key kv) path = true ->
     Key kv <> path /\ has_child path (Key kv) = false).
Proof.
  unfold List_in, ListDir_in. split.
  - destruct (list_scan path l ∅) as [m|] eqn:E.
    + split.
      * intros H kv Hin. injection H as H. rewrite sort_elements_nil in H.
        destruct (HasPrefix (Key kv) path) eqn:Hp; [|reflexivity]. exfalso.
        apply (H (segment_of path (Key kv))). apply (list_scan_some _ _ _ _ E). eauto 10.
      * intros H. f_equal. apply sort_elements_nil. intros x Hx.
        apply (list_scan_some _ _ _ _ E) in Hx as [Hx|(kv & Hin & Hp & _)]; [set_solver|].
        rewrite (H kv Hin) in Hp. discriminate.
    + split; [discriminate|]. intros H. exfalso.
      apply list_scan_none in E as (kv & Hin & Hk).
      specialize (H kv Hin). rewrite Hk, HasPrefix_refl in H. discriminate.
  - destruct (listdir_scan path l ∅) as [m|] eqn:E.
    + split.
      * intros H kv Hin Hp. injection H as H. rewrite sort_elements_nil in H. split.
        -- intros Hk. assert (listdir_scan path l ∅ = None) by (apply listdir_scan_none; eauto).
           congruence.
        -- destruct (has_child path (Key kv)) eqn:Hc; [|reflexivity]. exfalso.
           apply (H (segment_of path (Key kv))). apply (listdir_scan_some _ _ _ _ E). eauto 10.
      * intros H. f_equal. apply sort_elements_nil. intros x Hx.
        apply (listdir_scan_some _ _ _ _ E) in Hx as [Hx|(kv & Hin & Hp & Hc & _)]; [set_solver|].
        destruct (H kv Hin Hp) as [_ Hc']. congruence.
    + split; [discriminate|]. intros H. exfalso.
      apply listdir_scan_none in E as (kv & Hin & Hk).
      specialize (H kv Hin). rewrite Hk, HasPrefix_refl in H. now destruct (H eq_refl).
Qed.

Lemma cut_sep_no_sep (y : string) : contains_sep (fst (cut_sep y)) = false.
Proof.
  induction y as [|c y IH]; simpl; [reflexivity|].
  destruct (Ascii.eqb c "/"%char) eqn:E; [reflexivity|].
  destruct (cut_sep y) as [a r]. simpl in *. now rewrite E, IH.
Qed.

(** The names [List] and [ListDir] return never contain ['/']. *)
Theorem List_no_sep (l : list KVPair) (path : string) :
  (forall vs, List_in l path = Some vs -> forall x, In x vs -> contains_sep x = false) /\
  (forall ws, ListDir_in l path = Some ws -> forall x, In x ws -> contains_sep x = false).
Proof.
  unfold List_in, ListDir_in. split.
  - intros vs H x Hx. destruct (list_scan path l ∅) as [m|] eqn:E; [|discriminate].
    injection H as <-. apply (proj2 (proj2 (sorted_elements m))) in Hx.
    apply (list_scan_some _ _ _ _ E) in Hx as [Hx|(kv & _ & _ & ->)]; [set_solver|].
    apply cut_sep_no_sep.
  - intros ws H x Hx. destruct (listdir_scan path l ∅) as [m|] eqn:E; [|discriminate].
    injection H as <-. apply (proj2 (proj2 (sorted_elements m))) in Hx.
    apply (listdir_scan_some _ _ _ _ E) in Hx as [Hx|(kv & _ & _ & _ & ->)]; [set_solver|].
    apply cut_sep_no_sep.
Qed.

(** A fresh store: [Get] fails with [ErrNotExist], [GetAllValues] with
    [ErrNoMatch] and an empty slice, [List] and [ListDir] return empty. *)
Theorem New_queries (k pattern path : string) :
  Get New k = (KVPair0, Some ErrNotExist) /\
  GetAllValues New pattern = (GoSlice [], Some ErrNoMatch) /\
  List New path = Some [] /\ ListDir New path = Some [].
Proof. repeat split. Qed.

(** ** Locking: value receivers copy the [sync.RWMutex] *)

(** Every method of [Store] has a value receiver [(s Store)]: a call
    copies the struct, embedded [sync.RWMutex] included, and then locks
    the copy, while the map header [m] still points to the one shared
    map.  Each goroutine below runs one call: it copies the receiver
    (pc 0), takes the (read) lock (pc 1), accesses [s.m] (pc 2), releases
    the lock (pc 3) and is done (pc 4).  [byvalue = false] is the same
    code with a pointer receiver, locking the caller's mutex itself. *)
Module Concurrency.

Record RWMutex := { writer : bool; readers : nat }.

Definition unlocked : RWMutex := {| writer := false; readers := 0 |}.

(** The calls that use [Lock] and [RLock] respectively. *)
Inductive method := MSet (key value : string) | MGet (key : string).

Record thread := { prog : method; pc : nat; local : RWMutex }.

(** The caller's [Store] value: its mutex and the shared map. *)
Record state := { mu : RWMutex; heap : Store; threads : list thread }.

(** [Lock] / [RLock]: [None] while the call must wait. *)
Definition acquire (p : method) (M : RWMutex) : option RWMutex :=
  match p with
  | MSet _ _ =>
    if writer M || (0 <? readers M)%nat then None
    else Some {| writer := true; readers := readers M |}
  | MGet _ =>
    if writer M then None else Some {| writer := false; readers := S (readers M) |}
  end.

(** [Unlock] / [RUnlock] *)
Definition release (p : method) (M : RWMutex) : RWMutex :=
  match p with
  | MSet _ _ => {| writer := false; readers := readers M |}
  | MGet _ => {| writer := writer M; readers := readers M - 1 |}
  end.

(** The map access of the call. *)
Definition access (p : method) (h : Store) : Store :=
  match p with MSet k v => Set_ h k v | MGet _ => h end.

Definition with_pc (t : thread) (n : nat) (M : RWMutex) : thread :=
  {| prog := prog t; pc := n; local := M |}.

(** One step of a goroutine: the new caller mutex, map and thread. *)
Definition thread_step (byvalue : bool) (M : RWMutex) (h : Store) (t : thread)
  : option (RWMutex * Store * thread) :=
  match pc t with
  | 0 => Some (M, h, with_pc t 1 M)
  | 1 =>
    if byvalue then
      match acquire (prog t) (local t) with
      | Some L => Some (M, h, with_pc t 2 L)
      | None => None
      end
    else
      match acquire (prog t) M with
      | Some M' => Some (M', h, with_pc t 2 (local t))
      | None => None
      end
  | 2 => Some (M, access (prog t) h, with_pc t 3 (local t))
  | 3 =>
    if byvalue then Some (M, h, with_pc t 4 (release (prog t) (local t)))
    else Some (release (prog t) M, h, with_pc t 4 (local t))
  | _ => None
  end.

Inductive step (byvalue : bool) : state -> state -> Prop :=
  | step_thread (st : state) (i : nat) (t t' : thread) (M : RWMutex) (h : Store) :
      threads st !! i = Some t ->
      thread_step byvalue (mu st) (heap st) t = Some (M, h, t') ->
      step byvalue st {| mu := M; heap := h; threads := <[i := t']> (threads st) |}.

Inductive reachable (byvalue : bool) (st0 : state) : state -> Prop :=
  | reach_refl : reachable byvalue st0 st0
  | reach_step (st st' : state) :
      reachable byvalue st0 st -> step byvalue st st' -> reachable byvalue st0 st'.

Definition is_write (t : thread) : bool := match prog t with MSet _ _ => true | MGet _ => false end.

(** A data race: two goroutines about to access [s.m] at once, one of
    them writing. *)
Definition racy (st : state) : Prop :=
  exists i j ti tj, i <> j /\ threads st !! i = Some ti /\ threads st !! j = Some tj /\
    pc ti = 2 /\ pc tj = 2 /\ is_write ti = true.

(** Goroutines that have not started their call, under an unlocked mutex. *)
Definition initial (st : state) : Prop :=
  mu st = unlocked /\ Forall (fun t => pc t = 0) (threads st).

Definition fresh (p : method) : thread := {| prog := p; pc := 0; local := unlocked |}.

(** [s := New(); go s.Set("/a", "1"); go s.Get("/a")] *)
Definition set_get : state :=
  {| mu := unlocked; heap := New; threads := [fresh (MSet "/a" "1"); fresh (MGet "/a")] |}.

(** A goroutine about to lock holds a copy of the unlocked caller mutex. *)
Definition copies_unlocked (st : state) : Prop :=
  mu st = unlocked /\ forall i t, threads st !! i = Some t -> pc t = 1%nat -> local t = unlocked.

Definition count (f : thread -> bool) (l : list thread) : nat := List.length (List.filter f l).

Lemma count_insert (f : thread -> bool) (l : list thread) (i : nat) (t t' : thread) :
  l !! i = Some t ->
  (count f (<[i := t']> l) + Nat.b2n (f t) = count f l + Nat.b2n (f t'))%nat.
Proof.
  unfold count. revert i. induction l as [|x l IH]; intros [|i] H; simpl in H; try discriminate.
  - injection H as ->. simpl. destruct (f t), (f t'); simpl; lia.
  - simpl. specialize (IH i H). destruct (f x); simpl; lia.
Qed.

Lemma count_one (f : thread -> bool) (l : list thread) (i : nat) (t : thread) :
  l !! i = Some t -> f t = true -> (1 <= count f l)%nat.
Proof.
  unfold count. revert i. induction l as [|x l IH]; intros [|i] H Hf; simpl in H; try discriminate.
  - injection H as ->. simpl. rewrite Hf. simpl. lia.
  - simpl. specialize (IH i H Hf). destruct (f x); simpl; lia.
Qed.

Lemma count_two (f : thread -> bool) (l : list thread) (i j : nat) (a b : thread) :
  i <> j -> l !! i = Some a -> l !! j = Some b -> f a = true -> f b = true ->
  (2 <= count f l)%nat.
Proof.
  revert i j. induction l as [|x l IH]; intros [|i] [|j] Hij Ha Hb Hfa Hfb;
    simpl in Ha, Hb; try discriminate; try congruence; unfold count in *; simpl.
  - injection Ha as ->. rewrite Hfa. simpl. pose proof (count_one f l j b Hb Hfb). unfold count in *. lia.
  - injection Hb as ->. rewrite Hfb. simpl. pose proof (count_one f l i a Ha Hfa). unfold count in *. lia.
  - assert (i <> j) by congruence. specialize (IH i j H Ha Hb Hfa Hfb). destruct (f x); simpl; lia.
Qed.

Definition in_cs (t : thread) : bool := (pc t =? 2)%nat || (pc t =? 3)%nat.
Definition cs_writer (t : thread) : bool := is_write t && in_cs t.
Definition cs_reader (t : thread) : bool := negb (is_write t) && in_cs t.

(** With one shared mutex, its state counts the goroutines inside. *)
Definition lock_inv (st : state) : Prop :=
  readers (mu st) = count cs_reader (threads st) /\
  count cs_writer (threads st) = (if writer (mu st) then 1 else 0)%nat /\
  (writer (mu st) = true -> readers (mu st) = 0%nat).

Lemma lock_inv_initial (st : state) : initial st -> lock_inv st.
Proof.
  intros [Hmu Hpc]. unfold lock_inv. rewrite Hmu. simpl.
  assert (Hz : forall f, (forall t, pc t = 0%nat -> f t = false) -> count f (threads st) = 0%nat).
  { intros f Hf. unfold count. induction Hpc as [|t l Ht Hl IH]; simpl; [reflexivity|].
    rewrite (Hf t Ht). exact IH. }
  split; [symmetry|split; [|discriminate]]; apply Hz; intros t Ht;
    unfold cs_reader, cs_writer, in_cs; rewrite Ht; simpl; now rewrite andb_false_r.
Qed.

Ltac close_inv :=
  try match goal with
  | Hx : writer (mu ?st) = true -> _ |- _ =>
    destruct (writer (mu st)) eqn:?; simpl in *; [specialize (Hx eq_refl)|]
  end;
  repeat split; try lia; try (intros; discriminate); try congruence.

Lemma lock_inv_step (st st' : state) : lock_inv st -> step false st st' -> lock_inv st'.
Proof.
  intros (Hr & Hw & Hx) Hs. inversion Hs as [st0 i t t' M h Hi Ht]; subst st0 st'.
  unfold lock_inv. simpl.
  pose proof (count_insert cs_reader _ i t t' Hi) as Cr.
  pose proof (count_insert cs_writer _ i t t' Hi) as Cw.
  unfold thread_step in Ht.
  destruct (pc t) as [|[|[|[|n]]]] eqn:Hpc; try discriminate.
  - injection Ht as <- <- <-.
    unfold cs_reader, cs_writer, in_cs, with_pc, is_write in *; simpl in *. rewrite Hpc in *; simpl in *.
    destruct (prog t); simpl in *; close_inv.
  - destruct (acquire (prog t) (mu st)) as [M'|] eqn:Ha; [|discriminate].
    injection Ht as <- <- <-.
    unfold cs_reader, cs_writer, in_cs, with_pc, is_write in *; simpl in *. rewrite Hpc in *; simpl in *.
    unfold acquire in Ha.
    destruct (prog t); simpl in *.
    + destruct (writer (mu st) || (0 <? readers (mu st))%nat) eqn:E; [discriminate|].
      injection Ha as HM. subst M'. simpl. apply orb_false_iff in E as [E1 E2].
      apply Nat.ltb_ge in E2. close_inv.
    + destruct (writer (mu st)) eqn:E; [discriminate|].
      injection Ha as HM. subst M'. simpl. close_inv.
  - injection Ht as <- <- <-.
    unfold cs_reader, cs_writer, in_cs, with_pc, is_write in *; simpl in *. rewrite Hpc in *; simpl in *.
    destruct (prog t); simpl in *; close_inv.
  - injection Ht as <- <- <-.
    unfold cs_reader, cs_writer, in_cs, with_pc, is_write in *; simpl in *. rewrite Hpc in *; simpl in *.
    destruct (prog t); simpl in *; close_inv.
Qed.

Lemma lock_inv_reachable (st0 st : state) : lock_inv st0 -> reachable false st0 st -> lock_inv st.
Proof. intros H0 Hr. induction Hr; [exact H0|]. eapply lock_inv_step; eauto. Qed.

(** With a pointer receiver the same code would be race free. *)
Lemma shared_mutex_race_free (st0 st : state) : initial st0 -> reachable false st0 st -> ~ racy st.
Proof.
  intros H0 Hr (i & j & ti & tj & Hij & Hi & Hj & Hpi & Hpj & Hwi).
  destruct (lock_inv_reachable st0 st (lock_inv_initial _ H0) Hr) as (Hr' & Hw & Hx).
  assert (Hci : cs_writer ti = true) by (unfold cs_writer, in_cs; now rewrite Hwi, Hpi).
  pose proof (count_one _ _ _ _ Hi Hci) as H1.
  destruct (is_write tj) eqn:Hwj.
  - assert (Hcj : cs_writer tj = true) by (unfold cs_writer, in_cs; now rewrite Hwj, Hpj).
    pose proof (count_two _ _ _ _ _ _ Hij Hi Hj Hci Hcj).
    destruct (writer (mu st)); lia.
  - assert (Hcj : cs_reader tj = true) by (unfold cs_reader, in_cs; now rewrite Hwj, Hpj).
    pose proof (count_one _ _ _ _ Hj Hcj).
    destruct (writer (mu st)) eqn:E; [|lia]. specialize (Hx eq_refl). lia.
Qed.

Lemma value_step_mu (st st' : state) : step true st st' -> mu st' = mu st.
Proof.
  intros Hs. inversion Hs as [st0 i t t' M h Hi Ht]; subst. simpl.
  unfold thread_step in Ht. destruct (pc t) as [|[|[|[|n]]]]; try discriminate;
    try (injection Ht as <- <- <-; reflexivity).
  destruct (acquire (prog t) (local t)); [|discriminate]. now injection Ht as <- <- <-.
Qed.

Lemma copies_unlocked_step (st st' : state) :
  copies_unlocked st -> step true st st' -> copies_unlocked st'.
Proof.
  intros [Hm Hl] Hs. pose proof (value_step_mu _ _ Hs) as Hmu.
  inversion Hs as [st0 i t t' M h Hi Ht]; subst. split; [simpl in *; congruence|].
  simpl. intros j u Hj Hp.
  destruct (decide (j = i)) as [->|Hne].
  - assert (Hlen : (i < List.length (threads st))%nat) by (apply lookup_lt_is_Some; eauto).
    rewrite list_lookup_insert_eq in Hj by exact Hlen. injection Hj as <-.
    unfold thread_step in Ht. destruct (pc t) as [|[|[|[|n]]]] eqn:Hpc; try discriminate.
    + injection Ht as <- <- <-. simpl. exact Hm.
    + destruct (acquire (prog t) (local t)); [|discriminate]. injection Ht as <- <- <-. discriminate.
    + injection Ht as <- <- <-. discriminate.
    + injection Ht as <- <- <-. discriminate.
  - rewrite list_lookup_insert_ne in Hj by congruence. exact (Hl j u Hj Hp).
Qed.

(** With value receivers the caller's mutex is never touched, and every
    [Lock] / [RLock] succeeds at once: a goroutine about to lock can
    always step into its critical section. *)
Theorem value_receiver_lock_never_waits (st0 st : state) :
  initial st0 -> reachable true st0 st ->
  mu st = unlocked /\
  forall i t, threads st !! i = Some t -> pc t = 1%nat ->
    exists L, thread_step true (mu st) (heap st) t = Some (mu st, heap st, with_pc t 2 L).
Proof.
  intros [Hm0 Hp0] Hr.
  assert (Hc : copies_unlocked st).
  { induction Hr as [|st1 st2 Hr IH Hs].
    - split; [exact Hm0|]. intros i t Hi Hp.
      rewrite Forall_lookup in Hp0. rewrite (Hp0 i t Hi) in Hp. discriminate.
    - eapply copies_unlocked_step; eauto. }
  destruct Hc as [Hm Hl]. split; [exact Hm|].
  intros i t Hi Hp. unfold thread_step. rewrite Hp, (Hl i t Hi Hp).
  destruct (prog t); eexists; reflexivity.
Qed.

End Concurrency.

(** Claim C10: the locking does not exclude anything.  From [s := New()]
    with goroutines running [s.Set("/a", "1")] and [s.Get("/a")], a state
    is reachable where both are inside their critical sections, about to
    write and read [s.m] at once: a data race. *)
Theorem value_receivers_race :
  exists st, Concurrency.reachable true Concurrency.set_get st /\ Concurrency.racy st.
Proof.
  eexists. split.
  - eapply Concurrency.reach_step; [eapply Concurrency.reach_step;
      [eapply Concurrency.reach_step; [eapply Concurrency.reach_step;
        [apply Concurrency.reach_refl|]|]|]|].
    + eapply (Concurrency.step_thread true _ 0); reflexivity.
    + eapply (Concurrency.step_thread true _ 0); reflexivity.
    + eapply (Concurrency.step_thread true _ 1); reflexivity.
    + eapply (Concurrency.step_thread true _ 1); reflexivity.
  - exists 0%nat, 1%nat. do 2 eexists. repeat split; try reflexivity. discriminate.
Qed.

(** Instances of the conditional claims on the example store. *)

Lemma GetAll_success_witness :
  (values app_store ≡ₚ values app_store /\
   GetAll_in (values app_store) "/app/db/*" = (GoSlice db_pairs, None)) /\
  (GoSlice db_pairs = GoSlice (elems (GoSlice db_pairs)) /\
   Permutation (elems (GoSlice db_pairs)) (List.filter (is_match "/app/db/*") (values app_store)) /\
   (forall kv, In kv (elems (GoSlice db_pairs)) <->
      (exists k, app_store !! k = Some kv) /\ Match "/app/db/*" (Key kv) = (true, None)) /\
   Sorted (key_le Key) (elems (GoSlice db_pairs))).
Proof.
  assert (H1 : values app_store ≡ₚ values app_store) by reflexivity.
  assert (H2 : GetAll_in (values app_store) "/app/db/*" = (GoSlice db_pairs, None))
    by (vm_compute; reflexivity).
  split; [split; [exact H1 | exact H2] | exact (GetAll_success app_store _ _ _ H1 H2)].
Defined.

Lemma GetAll_failures_witness :
  (values app_store ≡ₚ values app_store /\ malformed "[" /\ app_store <> ∅) /\
  GetAll_in (values app_store) "[" = (GoNil, Some ErrBadPattern).
Proof.
  assert (H1 : values app_store ≡ₚ values app_store) by reflexivity.
  assert (H2 : malformed "[") by (exists "x"; reflexivity).
  assert (H3 : app_store <> ∅).
  { intros E. assert (app_store !! "/app/db/host" = None) as Hn by (rewrite E; reflexivity).
    vm_compute in Hn. discriminate. }
  split; [split; [exact H1 | split; [exact H2 | exact H3]]|].
  exact (proj1 (GetAll_failures app_store _ _ H1) H2 H3).
Defined.

Lemma GetAllValues_spec_witness :
  GetAll_in (values app_store) "/app/db/*" = (GoSlice db_pairs, None) /\
  GetAllValues_in (values app_store) "/app/db/*" = (GoSlice ["h"; "p"], None).
Proof.
  assert (H : GetAll_in (values app_store) "/app/db/*" = (GoSlice db_pairs, None))
    by (vm_compute; reflexivity).
  split; [exact H|].
  exact (proj1 (proj2 (GetAllValues_spec (values app_store) "/app/db/*")) _ H).
Defined.

Lemma Get_Set_Del_other_witness :
  "/b" <> "/a" /\
  Get (Set_ app_store "/b" "x") "/app/db/host" = Get app_store "/app/db/host" /\
  Get (Del app_store "/b") "/app/db/host" = Get app_store "/app/db/host".
Proof.
  split; [discriminate|].
  apply (Get_Set_Del_other app_store "/app/db/host" "/b" "x"). discriminate.
Defined.

Lemma Set_Del_commute_witness :
  "/a" <> "/b" /\
  Set_ (Set_ New "/a" "1") "/b" "2" = Set_ (Set_ New "/b" "2") "/a" "1" /\
  Del (Set_ New "/a" "1") "/b" = Set_ (Del New "/b") "/a" "1" /\
  Del (Del New "/a") "/b" = Del (Del New "/b") "/a".
Proof.
  split; [discriminate|]. apply (Set_Del_commute New "/a" "/b" "1" "2"). discriminate.
Defined.

Lemma Get_Key_field_witness :
  Get (run app_ops) "/app/db/host" = ({| Key := "/app/db/host"; Value := "h" |}, None) /\
  Key {| Key := "/app/db/host"; Value := "h" |} = "/app/db/host".
Proof.
  assert (H : Get (run app_ops) "/app/db/host" = ({| Key := "/app/db/host"; Value := "h" |}, None))
    by (vm_compute; reflexivity).
  split; [exact H | exact (Get_Key_field app_ops _ _ H)].
Defined.

Lemma app_store_consistent : keys_consistent app_store.
Proof. exact (run_consistent app_ops). Qed.

Lemma GetAll_literal_witness :
  (keys_consistent app_store /\ values app_store ≡ₚ values app_store /\
   literal "/app/db/host" = true) /\
  GetAll_in (values app_store) "/app/db/host" =
    (GoSlice [{| Key := "/app/db/host"; Value := "h" |}], None).
Proof.
  assert (H1 : values app_store ≡ₚ values app_store) by reflexivity.
  assert (H2 : literal "/app/db/host" = true) by reflexivity.
  split; [split; [exact app_store_consistent | split; [exact H1 | exact H2]]|].
  rewrite (GetAll_literal app_store _ _ app_store_consistent H1 H2). vm_compute. reflexivity.
Defined.

Lemma GetAll_after_Set_witness :
  (values (Set_ app_store "/app/db/user" "u") ≡ₚ values (Set_ app_store "/app/db/user" "u") /\
   Match "/app/db/*" "/app/db/user" = (true, None)) /\
  exists r, GetAll_in (values (Set_ app_store "/app/db/user" "u")) "/app/db/*" = (r, None) /\
    In {| Key := "/app/db/user"; Value := "u" |} (elems r).
Proof.
  assert (H1 : values (Set_ app_store "/app/db/user" "u") ≡ₚ values (Set_ app_store "/app/db/user" "u"))
    by reflexivity.
  assert (H2 : Match "/app/db/*" "/app/db/user" = (true, None)) by reflexivity.
  split; [split; [exact H1 | exact H2]|].
  exact (GetAll_after_Set app_store _ "/app/db/*" "/app/db/user" "u" H1 H2).
Defined.

Lemma GetAll_after_Del_witness :
  (keys_consistent app_store /\
   values (Del app_store "/app/db/host") ≡ₚ values (Del app_store "/app/db/host") /\
   GetAll_in (values (Del app_store "/app/db/host")) "/app/db/*" =
     (GoSlice [{| Key := "/app/db/port"; Value := "p" |}], None)) /\
  forall kv, In kv [{| Key := "/app/db/port"; Value := "p" |}] -> Key kv <> "/app/db/host".
Proof.
  assert (H1 : values (Del app_store "/app/db/host") ≡ₚ values (Del app_store "/app/db/host"))
    by reflexivity.
  assert (H2 : GetAll_in (values (Del app_store "/app/db/host")) "/app/db/*" =
     (GoSlice [{| Key := "/app/db/port"; Value := "p" |}], None)) by (vm_compute; reflexivity).
  split; [split; [exact app_store_consistent | split; [exact H1 | exact H2]]|].
  exact (GetAll_after_Del app_store _ "/app/db/*" "/app/db/host" _ app_store_consistent H1 H2).
Defined.

Lemma GetAll_distinct_keys_witness :
  (keys_consistent app_store /\ values app_store ≡ₚ values app_store /\
   GetAll_in (values app_store) "/app/db/*" = (GoSlice db_pairs, None)) /\
  db_pairs <> [] /\ NoDup (List.map Key db_pairs) /\
  StronglySorted (fun a b => String.ltb (Key a) (Key b) = true) db_pairs.
Proof.
  assert (H1 : values app_store ≡ₚ values app_store) by reflexivity.
  assert (H2 : GetAll_in (values app_store) "/app/db/*" = (GoSlice db_pairs, None))
    by (vm_compute; reflexivity).
  split; [split; [exact app_store_consistent | split; [exact H1 | exact H2]]|].
  exact (GetAll_distinct_keys app_store _ "/app/db/*" _ app_store_consistent H1 H2).
Defined.

Lemma GetAll_order_indep_witness :
  (keys_consistent app_store /\ values app_store ≡ₚ values app_store /\
   rev (values app_store) ≡ₚ values app_store) /\
  GetAll_in (values app_store) "/app/*/*" = GetAll_in (rev (values app_store)) "/app/*/*" /\
  GetAllValues_in (values app_store) "/app/*/*" = GetAllValues_in (rev (values app_store)) "/app/*/*".
Proof.
  assert (H1 : values app_store ≡ₚ values app_store) by reflexivity.
  assert (H2 : rev (values app_store) ≡ₚ values app_store) by (symmetry; apply Permutation_rev).
  split; [split; [exact app_store_consistent | split; [exact H1 | exact H2]]|].
  exact (GetAll_order_indep app_store _ _ "/app/*/*" app_store_consistent H1 H2).
Defined.

Lemma List_order_indep_witness :
  values app_store ≡ₚ rev (values app_store) /\
  List_in (values app_store) "/app" = List_in (rev (values app_store)) "/app" /\
  ListDir_in (values app_store) "/app" = ListDir_in (rev (values app_store)) "/app".
Proof.
  assert (H : values app_store ≡ₚ rev (values app_store)) by apply Permutation_rev.
  split; [exact H | exact (List_order_indep _ _ "/app" H)].
Defined.

Lemma ListDir_subset_List_witness :
  ListDir_in (values (Set_ app_store "/app/standalone" "s")) "/app" = Some ["cache"; "db"] /\
  exists vs, List_in (values (Set_ app_store "/app/standalone" "s")) "/app" = Some vs /\
    forall x, In x ["cache"; "db"] -> In x vs.
Proof.
  assert (H : ListDir_in (values (Set_ app_store "/app/standalone" "s")) "/app" = Some ["cache"; "db"])
    by (vm_compute; reflexivity).
  split; [exact H | exact (ListDir_subset_List _ "/app" _ H)].
Defined.

Lemma List_no_sep_witness :
  List_in (values app_store) "/app" = Some ["cache"; "db"] /\
  ListDir_in (values app_store) "/app" = Some ["cache"; "db"] /\
  forall x, In x ["cache"; "db"] -> contains_sep x = false.
Proof.
  assert (H1 : List_in (values app_store) "/app" = Some ["cache"; "db"]) by (vm_compute; reflexivity).
  assert (H2 : ListDir_in (values app_store) "/app" = Some ["cache"; "db"]) by (vm_compute; reflexivity).
  split; [exact H1 | split; [exact H2|]].
  exact (proj1 (List_no_sep (values app_store) "/app") _ H1).
Defined.

Lemma List_empty_iff_witness :
  List_in (values app_store) "/etc" = Some [] /\
  (forall kv, In kv (values app_store) -> HasPrefix (Key kv) "/etc" = false).
Proof.
  assert (H : List_in (values app_store) "/etc" = Some []) by (vm_compute; reflexivity).
  split; [exact H | exact (proj1 (proj1 (List_empty_iff (values app_store) "/etc")) H)].
Defined.

Lemma app_store_no_path_key : forall kv, In kv (values app_store) -> Key kv <> "/app".
Proof.
  intros kv Hin E. destruct (proj1 (In_values app_store kv) Hin) as [k Hk].
  rewrite (app_store_consistent k kv Hk) in E. subst k. vm_compute in Hk. discriminate.
Qed.

Lemma List_segments_witness :
  (forall kv, In kv (values app_store) -> Key kv <> "/app") /\
  exists vs, List_in (values app_store) "/app" = Some vs /\
    (forall x, In x vs <-> exists kv, In kv (values app_store) /\
       HasPrefix (Key kv) "/app" = true /\ x = segment_of "/app" (Key kv)) /\
    Sorted (key_le (fun s => s)) vs /\ NoDup vs.
Proof.
  split; [exact app_store_no_path_key | exact (List_segments _ "/app" app_store_no_path_key)].
Defined.

Lemma ListDir_segments_witness :
  (forall kv, In kv (values app_store) -> Key kv <> "/app") /\
  exists ws, ListDir_in (values app_store) "/app" = Some ws /\
    (forall x, In x ws <-> exists kv, In kv (values app_store) /\ HasPrefix (Key kv) "/app" = true /\
       has_child "/app" (Key kv) = true /\ x = segment_of "/app" (Key kv)) /\
    Sorted (key_le (fun s => s)) ws /\ NoDup ws.
Proof.
  split; [exact app_store_no_path_key | exact (ListDir_segments _ "/app" app_store_no_path_key)].
Defined.

Lemma value_receiver_lock_never_waits_witness :
  (Concurrency.initial Concurrency.set_get /\
   Concurrency.reachable true Concurrency.set_get Concurrency.set_get) /\
  Concurrency.mu Concurrency.set_get = Concurrency.unlocked /\
  forall i t, Concurrency.threads Concurrency.set_get !! i = Some t -> Concurrency.pc t = 1%nat ->
    exists L, Concurrency.thread_step true (Concurrency.mu Concurrency.set_get)
      (Concurrency.heap Concurrency.set_get) t =
      Some (Concurrency.mu Concurrency.set_get, Concurrency.heap Concurrency.set_get,
            Concurrency.with_pc t 2 L).
Proof.
  assert (H1 : Concurrency.initial Concurrency.set_get).
  { split; [reflexivity|]. repeat constructor. }
  assert (H2 : Concurrency.reachable true Concurrency.set_get Concurrency.set_get)
    by apply Concurrency.reach_refl.
  split; [split; [exact H1 | exact H2]|].
  exact (Concurrency.value_receiver_lock_never_waits _ _ H1 H2).
Defined.
